(** * voice2clip: the push-to-talk recording cycle and the transcript filter

    A shallow embedding of [push_to_talk.py] (class [PushToTalk]).

    - [PyStr]: the Python [str] operations the program uses ([split],
      [join], [strip], [lower], [in]) over lists of code points.
    - [Re]: the fragment of Python's [re] that the program's four patterns
      need, with greedy, backtracking repetition, and [re.sub] with an
      empty replacement.
    - [Filter]: [_clean_transcription].
    - [App]: the recording state, the external world as an oracle, and
      [_send_notification], [start_recording],
      [stop_recording_and_transcribe], [_transcribe_audio] and the key
      handlers as state-passing functions that log their external effects.

    The definitions are followed by the vocabulary of the statements, by
    worked examples, and by the properties C1 to C10 of the
    specification with the facts they rest on.

    Scope of the character tables: whitespace is Python's full
    [str.isspace] set; decimal digits ([\d]) and [str.lower] are those of
    the code points below 256, where Python's tables are exactly the ones
    written here.  Code points from 256 on are carried as caseless
    non-digits. Diagnostic [print] calls are not modelled, except the
    console fallback of [_send_notification]. *)

From Stdlib Require Import List Bool NArith ZArith QArith Lia String Ascii.
Import ListNotations.
Close Scope Q_scope.

(* ================================================================== *)
(** * Python strings *)
(* ================================================================== *)

Module PyStr.

Local Open Scope N_scope.

(** A character is its Unicode code point; a [str] is a list of them. *)
Abbreviation char := N (only parsing).
Abbreviation str := (list N) (only parsing).

(** String literals of the source whose characters are all ASCII. *)
Definition lit (s : string) : str := map N_of_ascii (list_ascii_of_string s).

Definition char_eqb (a b : char) : bool := N.eqb a b.

Fixpoint str_eqb (a b : str) : bool :=
  match a, b with
  | [], [] => true
  | x :: a', y :: b' => char_eqb x y && str_eqb a' b'
  | _, _ => false
  end.

(** [c in chars] for a character, [s in strings] for a string. *)
Definition char_in (chars : str) (c : char) : bool := existsb (char_eqb c) chars.
Definition str_in (s : str) (l : list str) : bool := existsb (str_eqb s) l.

(** [str.isspace] on one character (CPython's [Py_UNICODE_ISSPACE]): the
    class used by [split()], [strip()] and the regex escape [\s]. *)
Definition isspace (c : char) : bool :=
  ((9 <=? c) && (c <=? 13)) || ((28 <=? c) && (c <=? 32))
  || (c =? 133) || (c =? 160) || (c =? 5760)
  || ((8192 <=? c) && (c <=? 8202))
  || (c =? 8232) || (c =? 8233) || (c =? 8239) || (c =? 8287) || (c =? 12288).

(** The regex escape [\d]. *)
Definition isdigit (c : char) : bool := (48 <=? c) && (c <=? 57).

(** [str.lower] on one character: A-Z, and the Latin-1 capitals
    U+00C0..U+00DE except the multiplication sign U+00D7. *)
Definition lower_char (c : char) : char :=
  if ((65 <=? c) && (c <=? 90))
     || ((192 <=? c) && (c <=? 222) && negb (c =? 215))
  then c + 32 else c.

Definition lower (s : str) : str := map lower_char s.

(** [not s] *)
Definition is_empty (s : str) : bool :=
  match s with [] => true | _ :: _ => false end.

(** [s.split()]: the maximal runs of non-whitespace characters, in order. *)
Fixpoint split (s : str) : list str :=
  match s with
  | [] => []
  | c :: r =>
      if isspace c then split r
      else match r with
           | [] => [[c]]
           | d :: _ =>
               if isspace d then [c] :: split r
               else match split r with
                    | w :: ws => (c :: w) :: ws
                    | [] => [[c]]
                    end
           end
  end.

(** [sep.join(ws)] *)
Fixpoint join (sep : str) (ws : list str) : str :=
  match ws with
  | [] => []
  | [w] => w
  | w :: rest => w ++ sep ++ join sep rest
  end.

(** [s.lstrip], [s.rstrip] and [s.strip]; [p] is the set of characters to
    remove: [isspace] for [strip()], [char_in chars] for [strip(chars)]. *)
Fixpoint lstrip (p : char -> bool) (s : str) : str :=
  match s with
  | [] => []
  | c :: r => if p c then lstrip p r else s
  end.

Fixpoint rstrip (p : char -> bool) (s : str) : str :=
  match s with
  | [] => []
  | c :: r =>
      match rstrip p r with
      | [] => if p c then [] else [c]
      | r' => c :: r'
      end
  end.

Definition strip (p : char -> bool) (s : str) : str := rstrip p (lstrip p s).

End PyStr.

(* ================================================================== *)
(** * Regular expressions *)
(* ================================================================== *)

Module Re.

Import PyStr.
Local Open Scope N_scope.

(** The items the program's patterns are made of.  [One p] is a single
    character of the class [p] (a literal, [\d], a bracket class); a
    counted repetition [\d{2}] is written as that many [One]s.  [Many p]
    is [p*], greedy.  [Eos] is [$] without [re.MULTILINE]: the end of the
    string, or just before a newline that ends the string. *)
Inductive item :=
| One (p : char -> bool)
| Many (p : char -> bool)
| Eos.

Definition pattern := list item.

(** [p*] followed by the rest of the pattern, given as [rest]: take as
    many characters of the class as there are, then give them back one at
    a time while the rest of the pattern fails. *)
Fixpoint star (p : char -> bool) (rest : str -> option nat) (s : str)
  : option nat :=
  match s with
  | c :: s' =>
      if p c then
        match star p rest s' with
        | Some n => Some (S n)
        | None => rest s
        end
      else rest s
  | [] => rest []
  end.

(** Try the pattern at the head of [s]: the length of the match that a
    backtracking matcher finds first. *)
Fixpoint match_here (pat : pattern) (s : str) {struct pat} : option nat :=
  match pat with
  | [] => Some 0%nat
  | One p :: pat' =>
      match s with
      | c :: s' => if p c then option_map S (match_here pat' s') else None
      | [] => None
      end
  | Many p :: pat' => star p (match_here pat') s
  | Eos :: pat' =>
      match s with
      | [] => match_here pat' s
      | [c] => if char_eqb c 10 then match_here pat' s else None
      | _ => None
      end
  end.

(** [re.match(pat, s)] as a truth value. *)
Definition re_match (pat : pattern) (s : str) : bool :=
  match match_here pat s with Some _ => true | None => false end.


(** [re.sub(pat, '', s)]: scan from the left; delete each match that is
    found and resume the scan right after it.  [skip] counts the
    characters of the current match still to be dropped.  (A match of
    length 0 deletes nothing.) *)
Fixpoint sub_from (pat : pattern) (skip : nat) (s : str) : str :=
  match s with
  | [] => []
  | c :: s' =>
      match skip with
      | S k => sub_from pat k s'
      | O =>
          match match_here pat s with
          | Some (S k) => sub_from pat k s'
          | _ => c :: sub_from pat 0 s'
          end
      end
  end.

Definition re_sub (pat : pattern) (s : str) : str := sub_from pat 0 s.

End Re.

(* ================================================================== *)
(** * The transcript filter *)
(* ================================================================== *)

Module Filter.

Import PyStr Re.
Local Open Scope N_scope.

Definition chr (s : string) : char -> bool :=
  match lit s with
  | [c] => char_eqb c
  | _ => fun _ => false
  end.

Definition d := One isdigit.

(** [\d{2}:\d{2}:\d{2}] *)
Definition hms : pattern :=
  [d; d; One (chr ":"); d; d; One (chr ":"); d; d].

(** [\d{2}:\d{2}:\d{2}\.\d{3}] *)
Definition hms_ms : pattern := hms ++ [One (chr "."); d; d; d].

(** [\[\d{2}:\d{2}:\d{2}\.\d{3}\s*-->\s*\d{2}:\d{2}:\d{2}\.\d{3}\]] *)
Definition srt : pattern :=
  [One (chr "[")] ++ hms_ms
  ++ [Many isspace; One (chr "-"); One (chr "-"); One (chr ">"); Many isspace]
  ++ hms_ms ++ [One (chr "]")].

(** [^[\d\s\.,!?;:]*$], used with [re.match], which anchors at the start. *)
Definition digits_punct_class (c : char) : bool :=
  isdigit c || isspace c || char_in (lit ".,!?;:") c.

Definition digits_punct : pattern := [Many digits_punct_class; Eos].

Definition false_positives : list str :=
  [lit "um"; lit "uh"; lit "ah"; lit "eh"; lit "er";
   lit ""; lit " "; lit "  "; lit "..."; lit "..."].

Definition meaningful_single_words : list str :=
  [lit "you"; lit "hello"; lit "yes"; lit "no"; lit "okay"; lit "ok";
   lit "stop"; lit "go"; lit "up"; lit "down"; lit "left"; lit "right"].

(** [words[0]] of a list known to have one element. *)
Definition word0 (words : list str) : str := hd [] words.

(** [PushToTalk._clean_transcription]; [None] is Python's [None]. *)
Definition _clean_transcription (text : str) : option str :=
  if is_empty text then None else
  let text := re_sub srt text in
  let text := re_sub hms_ms text in
  let text := re_sub hms text in
  let text := join (lit " ") (split text) in
  let text := strip (char_in (lit " .,!?;-")) text in
  if is_empty text then None else
  let text_lower := strip isspace (lower text) in
  if (List.length text_lower <? 2)%nat then None else
  if str_in text_lower false_positives then None else
  let words := split text_lower in
  if (List.length words =? 1)%nat && str_in (word0 words) false_positives then None else
  if (List.length words =? 1)%nat && str_in (word0 words) meaningful_single_words
  then Some text else
  if re_match digits_punct text then None else
  Some text.

End Filter.

(* ================================================================== *)
(** * The recording cycle *)
(* ================================================================== *)

Module App.

Import PyStr Re Filter.

(** One [stream.read(CHUNK)]: the bytes of 1024 samples. *)
Definition chunk := list N.

(** Audio settings of [__init__]. *)
Definition CHUNK : Z := 1024.
Definition RATE : Z := 16000.

(** The constructor's arguments that the cycle reads. *)
Record config := {
  whisper_path : str;
  model_path : option str;
  audio_device : option Z
}.

(** What the program does to the outside: each external call it makes is
    logged in the order it happens. *)
Inductive event :=
| NotifySend (title message : str) (timeout_ms : Z) (icon : option str)
| PlyerNotify (title message : str) (timeout : Z) (icon : option str)
| ConsoleNotify (title message : str)
| TempFile (path : str)
| WaveWrite (path : str) (frames : list chunk)
| RunWhisper (cmd : list str)
| ClipboardCopy (text : str)
| SaveJson (path transcription : str) (duration_seconds : Q)
| Unlink (path : str)
| OpenStream
| ReadChunk
| CloseStream.

(** [subprocess.run(cmd, capture_output=True, text=True, timeout=30)] *)
Inductive run_result :=
| Completed (returncode : Z) (stdout stderr : str)
| TimeoutExpired
| OtherError.

Inductive read_result :=
| Data (data : chunk)
| ReadError.

(** The outside world: how each external call of one cycle turns out.
    A field [*_raises] says that the call raises an exception. *)
Record world := {
  NOTIFY_SEND_AVAILABLE : bool;
  PLYER_AVAILABLE : bool;
  notify_send_raises : str -> bool;
  temp_file : option str;
  wave_write_raises : bool;
  model_path_exists : bool;
  whisper_run : run_result;
  clipboard_raises : bool;
  save_raises : bool;
  record_path : str;
  unlink_raises : bool;
  stream_open_raises : bool;
  stream_reads : list read_result
}.

(** [self], the temporary files on disk and the log of external calls. *)
Record state := {
  is_recording : bool;
  audio_frames : list chunk;
  open_streams : nat;
  files : list str;
  log : list event
}.

Definition set_recording (b : bool) (st : state) : state :=
  {| is_recording := b; audio_frames := audio_frames st;
     open_streams := open_streams st; files := files st; log := log st |}.

Definition set_frames (fr : list chunk) (st : state) : state :=
  {| is_recording := is_recording st; audio_frames := fr;
     open_streams := open_streams st; files := files st; log := log st |}.

Definition set_streams (n : nat) (st : state) : state :=
  {| is_recording := is_recording st; audio_frames := audio_frames st;
     open_streams := n; files := files st; log := log st |}.

Definition set_files (fs : list str) (st : state) : state :=
  {| is_recording := is_recording st; audio_frames := audio_frames st;
     open_streams := open_streams st; files := fs; log := log st |}.

Definition emit (e : event) (st : state) : state :=
  {| is_recording := is_recording st; audio_frames := audio_frames st;
     open_streams := open_streams st; files := files st;
     log := log st ++ [e] |}.

(** [if icon:] *)
Definition truthy_icon (icon : option str) : option str :=
  match icon with
  | Some (c :: i) => Some (c :: i)
  | _ => None
  end.

(** [PushToTalk._send_notification].  A failing [notify-send] falls
    through to plyer; a failing plyer call is only printed. *)
Definition _send_notification (w : world) (title message : str)
    (timeout : Z) (icon : option str) (st : state) : state :=
  if is_empty (strip isspace title) || is_empty (strip isspace message)
  then st
  else
    let fallback (st : state) : state :=
      if PLYER_AVAILABLE w
      then emit (PlyerNotify title message timeout icon) st
      else emit (ConsoleNotify title message) st in
    if NOTIFY_SEND_AVAILABLE w then
      let st := emit (NotifySend title message (timeout * 1000) (truthy_icon icon)) st in
      if notify_send_raises w title then fallback st else st
    else fallback st.

(** The capture loop of [start_recording].  The flag [is_recording] that
    the loop tests is cleared by the thread running
    [stop_recording_and_transcribe]; [reads] lists the reads that take
    place before the loop sees the flag cleared.  The boolean tells
    whether a read raised. *)
Fixpoint record_loop (reads : list read_result) (st : state) : state * bool :=
  match reads with
  | [] => (st, false)
  | Data data :: reads' =>
      record_loop reads'
        (set_frames (audio_frames st ++ [data]) (emit ReadChunk st))
  | ReadError :: _ => (emit ReadChunk st, true)
  end.

(** [PushToTalk.start_recording] *)
Definition start_recording (w : world) (st : state) : state :=
  if is_recording st then st else
  let st := set_recording true st in
  let st := set_frames [] st in
  let st := _send_notification w (lit "Start") (lit "Recording...") 1 None st in
  if stream_open_raises w then set_recording false (emit OpenStream st)
  else
    let st := set_streams (S (open_streams st)) (emit OpenStream st) in
    match record_loop (stream_reads w) st with
    | (st, false) =>
        set_recording false
          (set_streams (pred (open_streams st)) (emit CloseStream st))
    | (st, true) => set_recording false st
    end.

(** [PushToTalk._save_transcription] *)
Definition _save_transcription (w : world) (transcription : str)
    (duration : Q) (st : state) : option str * state :=
  if is_empty transcription then (None, st)
  else if save_raises w then (None, st)
  else (Some (record_path w),
        emit (SaveJson (record_path w) transcription duration) st).

(** The command line built by [_transcribe_audio]. *)
Definition whisper_cmd (cfg : config) (model audio_path : str) : list str :=
  [whisper_path cfg; lit "-m"; model; lit "-f"; audio_path;
   lit "-t"; lit "6"; lit "--split-on-word"; lit "-np"; lit "-nt";
   lit "-wt"; lit "0.01"; lit "-nth"; lit "0.60";
   lit "-bo"; lit "3"; lit "-bs"; lit "3"].

Definition timeout_title : str := 9200%N :: lit " Transcription Timeout".

(** [PushToTalk._transcribe_audio] *)
Definition _transcribe_audio (cfg : config) (w : world) (audio_path : str)
    (st : state) : option str * state :=
  match model_path cfg with
  | Some (c :: m) =>
      if negb (model_path_exists w) then (None, st) else
      let st := emit (RunWhisper (whisper_cmd cfg (c :: m) audio_path)) st in
      match whisper_run w with
      | Completed returncode stdout stderr =>
          if (returncode =? 0)%Z then
            let raw_output := strip isspace stdout in
            (_clean_transcription raw_output, st)
          else (None, st)
      | TimeoutExpired =>
          (None,
           _send_notification w timeout_title
             (lit "Audio processing took too long") 5 None st)
      | OtherError => (None, st)
      end
  | _ => (None, st)
  end.

Definition Qltb (x y : Q) : bool := negb (Qle_bool y x).

(** [(len(self.audio_frames) * self.CHUNK) / self.RATE]. The program
    computes it in binary floating point and compares it with the float
    [0.3]; the quotients are the multiples of 0.064, none of which is
    within rounding distance of 0.3, so the comparison is the exact one. *)
Definition audio_duration (frames : list chunk) : Q :=
  (inject_Z (Z.of_nat (List.length frames) * CHUNK) / inject_Z RATE)%Q.

Definition min_duration : Q := (3 # 10)%Q.

(** [os.unlink(temp_path)] inside [try: ... except: pass] *)
Definition unlink (w : world) (path : str) (st : state) : state :=
  let st := emit (Unlink path) st in
  if unlink_raises w then st
  else set_files (filter (fun f => negb (str_eqb f path)) (files st)) st.

(** The [if transcription:] branch of [stop_recording_and_transcribe];
    an exception of [pyperclip.copy] reaches [except Exception]. *)
Definition deliver (w : world) (transcription : str) (duration : Q)
    (st : state) : state :=
  if clipboard_raises w then st else
  let st := emit (ClipboardCopy transcription) st in
  let (saved_path, st) := _save_transcription w transcription duration st in
  _send_notification w (lit "Completed") (lit "Transcribed") 1 None st.

(** The [try] block of [stop_recording_and_transcribe] with its
    [except Exception] handler. *)
Definition try_block (cfg : config) (w : world) (temp_path : str)
    (st : state) : state :=
  if wave_write_raises w then st else
  let st := emit (WaveWrite temp_path (audio_frames st)) st in
  let duration := audio_duration (audio_frames st) in
  if (List.length (audio_frames st) =? 0)%nat then st
  else if Qltb duration min_duration then st
  else
    let (transcription, st) := _transcribe_audio cfg w temp_path st in
    match transcription with
    | Some (c :: t) => deliver w (c :: t) duration st
    | _ => st
    end.

(** [PushToTalk.stop_recording_and_transcribe].  When
    [tempfile.NamedTemporaryFile] raises, the exception leaves the
    function before the [try] block is entered. *)
Definition stop_recording_and_transcribe (cfg : config) (w : world)
    (st : state) : state :=
  if negb (is_recording st) then st else
  let st := set_recording false st in
  let st := _send_notification w (lit "Processing") (lit "Transcribing...") 1 None st in
  match temp_file w with
  | None => st
  | Some temp_path =>
      let st := set_files (temp_path :: files st) (emit (TempFile temp_path) st) in
      let st := try_block cfg w temp_path st in
      unlink w temp_path st
  end.

(** Keys of the listener and the threads the handlers start. *)
Inductive key := alt_l | esc | other_key (code : nat).

Definition key_eqb (a b : key) : bool :=
  match a, b with
  | alt_l, alt_l => true
  | esc, esc => true
  | other_key m, other_key n => Nat.eqb m n
  | _, _ => false
  end.

Definition push_to_talk_key : key := alt_l.

Inductive thread := StartRecording | StopRecordingAndTranscribe.

(** [PushToTalk.on_key_press] and [on_key_release]: the thread started,
    if any. *)
Definition on_key_press (k : key) (st : state) : option thread :=
  if key_eqb k push_to_talk_key then
    if negb (is_recording st) then Some StartRecording else None
  else None.

Definition on_key_release (k : key) (st : state) : option thread :=
  if key_eqb k push_to_talk_key then
    if is_recording st then Some StopRecordingAndTranscribe else None
  else None.

End App.

Import PyStr Re Filter App.

(* ================================================================== *)
(** * Finding the model *)
(* ================================================================== *)

Module Startup.

Import PyStr App.

(** A [pathlib.Path] as the list of its parts; [p / part]. *)
Definition path := list (list N).

Definition div (p : path) (part : str) : path := p ++ [part].

(** What [_find_model_path] asks of the file system: the home and the
    working directory, [Path.exists], the paths that
    [path.glob("*.ggml*")] yields, in the order it yields them, and
    [Path.is_file]. *)
Record filesystem := {
  home : path;
  cwd : path;
  path_exists : path -> bool;
  glob_ggml : path -> list path;
  is_file : path -> bool
}.

Definition common_paths (fs : filesystem) : list path :=
  [div (div (home fs) (lit ".cache")) (lit "whisper");
   div (cwd fs) (lit "models");
   [lit "/"; lit "usr"; lit "local"; lit "share"; lit "whisper"];
   [lit "/"; lit "usr"; lit "share"; lit "whisper"]].

(** The inner loop of [_find_model_path]: the first regular file. *)
Fixpoint first_file (fs : filesystem) (found : list path) : option path :=
  match found with
  | [] => None
  | f :: rest => if is_file fs f then Some f else first_file fs rest
  end.

(** The outer loop of [_find_model_path]. *)
Fixpoint find_in (fs : filesystem) (paths : list path) : option path :=
  match paths with
  | [] => None
  | p :: rest =>
      if path_exists fs p then
        match first_file fs (glob_ggml fs p) with
        | Some f => Some f
        | None => find_in fs rest
        end
      else find_in fs rest
  end.

(** [PushToTalk._find_model_path]; the path found stands for the string
    [str(ggml_file)] that the method returns. *)
Definition _find_model_path (fs : filesystem) : option path :=
  find_in fs (common_paths fs).

End Startup.

Import Startup.

(* ================================================================== *)
(** * Vocabulary of the statements *)
(* ================================================================== *)

(** Appending a batch of events to the log, everything else untouched. *)
Definition append_log (es : list event) (st : state) : state :=
  {| is_recording := is_recording st; audio_frames := audio_frames st;
     open_streams := open_streams st; files := files st;
     log := log st ++ es |}.

(** The title of a notification event, whichever transport carries it. *)
Definition notification_title (e : event) : option str :=
  match e with
  | NotifySend t _ _ _ | PlyerNotify t _ _ _ | ConsoleNotify t _ => Some t
  | _ => None
  end.


(** The three deletion passes of [_clean_transcription], and the text it
    goes on to judge: the passes, then whitespace collapsed and the ends
    trimmed. *)
Definition remove_timestamps (text : str) : str :=
  re_sub hms (re_sub hms_ms (re_sub srt text)).

Definition cleaned (text : str) : str :=
  strip (char_in (lit " .,!?;-"))
    (join (lit " ") (split (remove_timestamps text))).

(** The checks that [_clean_transcription] applies to the cleaned text
    (from the second [if not text] to the end of the function). *)
Definition judge (text : str) : option str :=
  if is_empty text then None else
  let text_lower := strip isspace (lower text) in
  if (List.length text_lower <? 2)%nat then None else
  if str_in text_lower false_positives then None else
  let words := split text_lower in
  if (List.length words =? 1)%nat && str_in (word0 words) false_positives then None else
  if (List.length words =? 1)%nat && str_in (word0 words) meaningful_single_words
  then Some text else
  if re_match digits_punct text then None else
  Some text.


(** The separator of [' '.join]. *)
Definition sp : str := lit " ".


(** A text without whitespace. *)
Definition nospace (s : str) : bool :=
  forallb (fun c => negb (isspace c)) s.

(** Every whitespace character is a single U+0020 followed by a
    character that is not whitespace. *)
Fixpoint single_spaced (s : str) : bool :=
  match s with
  | [] => true
  | c :: r =>
      (if isspace c
       then char_eqb c 32%N
            && match r with [] => false | e :: _ => negb (isspace e) end
       else true)
      && single_spaced r
  end.

Definition no_leading_space (s : str) : bool :=
  match s with
  | [] => true
  | c :: _ => negb (isspace c)
  end.

(** Words as [split] produces them. *)
Definition word (w : str) : bool := negb (is_empty w) && nospace w.

(** A whole string that is one timestamp marker
    [[hh:mm:ss.mmm --> hh:mm:ss.mmm]]. *)
Definition is_marker (m : str) : Prop :=
  match_here srt m = Some (List.length m).









(** Patterns in which every [p*] is followed by a single character of a
    class disjoint from [p], and that contain no [$]: what such a pattern
    matches at the head of a string does not depend on what follows the
    match. *)
Inductive stable : pattern -> Prop :=
| stable_nil : stable []
| stable_one p pat : stable pat -> stable (One p :: pat)
| stable_many p q pat :
    (forall c, p c = true -> q c = false) ->
    stable (One q :: pat) -> stable (Many p :: One q :: pat).




(** Patterns that cannot use whitespace at the end of a match: each
    single-character class rejects whitespace, and each [p*] is followed
    by such a class. *)
Inductive unspaced : pattern -> Prop :=
| unspaced_nil : unspaced []
| unspaced_one p pat :
    (forall c, isspace c = true -> p c = false) -> unspaced pat ->
    unspaced (One p :: pat)
| unspaced_many p q pat :
    (forall c, isspace c = true -> q c = false) -> unspaced pat ->
    unspaced (Many p :: One q :: pat).

(** The events that a call has added to the log. *)
Definition new_events (before after : state) : list event :=
  skipn (List.length (log before)) (log after).

(** The events that [_send_notification] adds. *)
Definition notify_events (w : world) (title message : str) (timeout : Z)
    (icon : option str) : list event :=
  log (_send_notification w title message timeout icon
         {| is_recording := false; audio_frames := []; open_streams := 0;
            files := []; log := [] |}).

(** The model file is named and is there. *)
Definition model_usable (cfg : config) (w : world) : bool :=
  match model_path cfg with
  | Some (_ :: _) => model_path_exists w
  | _ => false
  end.

(** The transcript that the engine's run gives, if any: the filtered
    standard output of a run that exits with code zero. *)
Definition engine_transcript (w : world) : option str :=
  match whisper_run w with
  | Completed returncode stdout _ =>
      if (returncode =? 0)%Z
      then _clean_transcription (strip isspace stdout)
      else None
  | _ => None
  end.

(** The chunks read before the first failing read, and whether a read
    fails. *)
Fixpoint captured (reads : list read_result) : list chunk :=
  match reads with
  | Data data :: reads' => data :: captured reads'
  | _ => []
  end.

Fixpoint read_fails (reads : list read_result) : bool :=
  match reads with
  | [] => false
  | Data _ :: reads' => read_fails reads'
  | ReadError :: _ => true
  end.

(** Notification events under a given title. *)
Definition titled (title : str) (e : event) : bool :=
  match notification_title e with
  | Some t => str_eqb t title
  | None => false
  end.

(** No regular file in the globs of the existing ones of these
    directories. *)
Definition no_model_in (fs : filesystem) (dirs : list path) : Prop :=
  forall dir g,
    In dir dirs -> path_exists fs dir = true ->
    In g (glob_ggml fs dir) -> is_file fs g = false.

(** A file system with a model in the working directory only. *)
Definition fs0 : filesystem :=
  {| home := [lit "/"; lit "home"; lit "amg"];
     cwd := [lit "/"; lit "srv"];
     path_exists := fun p =>
       match p with
       | [_; _; m] => str_eqb m (lit "models")
       | _ => true
       end;
     glob_ggml := fun p =>
       match p with
       | [_; _; m] => [p ++ [lit "notes.ggml.d"]; p ++ [lit "base.ggml"]]
       | _ => []
       end;
     is_file := fun f =>
       match rev f with
       | n :: _ => str_eqb n (lit "base.ggml")
       | [] => false
       end |}.

(** The events of a cycle, stage by stage, as lists: what
    [_transcribe_audio], the delivery, the [try] block and the whole of
    [stop_recording_and_transcribe] add to the log. *)
Definition model_name (cfg : config) : str :=
  match model_path cfg with
  | Some m => m
  | None => []
  end.

Definition transcribe_events (cfg : config) (w : world) (audio_path : str)
  : list event :=
  if model_usable cfg w then
    RunWhisper (whisper_cmd cfg (model_name cfg) audio_path)
    :: match whisper_run w with
       | TimeoutExpired =>
           notify_events w timeout_title
             (lit "Audio processing took too long") 5 None
       | _ => []
       end
  else [].

Definition transcribe_result (cfg : config) (w : world) : option str :=
  if model_usable cfg w then engine_transcript w else None.

Definition deliver_events (w : world) (t : str) (duration : Q) : list event :=
  if clipboard_raises w then []
  else ClipboardCopy t
       :: (if is_empty t || save_raises w then []
           else [SaveJson (record_path w) t duration])
       ++ notify_events w (lit "Completed") (lit "Transcribed") 1 None.

Definition try_events (cfg : config) (w : world) (temp_path : str)
    (frames : list chunk) : list event :=
  if wave_write_raises w then []
  else WaveWrite temp_path frames
       :: (if (List.length frames =? 0)%nat
              || Qltb (audio_duration frames) min_duration
           then []
           else transcribe_events cfg w temp_path
                ++ match transcribe_result cfg w with
                   | Some (c :: t) =>
                       deliver_events w (c :: t) (audio_duration frames)
                   | _ => []
                   end).

Definition cycle_events (cfg : config) (w : world) (frames : list chunk)
  : list event :=
  notify_events w (lit "Processing") (lit "Transcribing...") 1 None
  ++ match temp_file w with
     | None => []
     | Some p => TempFile p :: try_events cfg w p frames ++ [Unlink p]
     end.

(** Sample inputs. *)
Definition cfg0 : config :=
  {| whisper_path := lit "whisper-cli";
     model_path := Some (lit "ggml-large-v3.bin");
     audio_device := None |}.

Definition world0 : world :=
  {| NOTIFY_SEND_AVAILABLE := true;
     PLYER_AVAILABLE := false;
     notify_send_raises := fun _ => false;
     temp_file := Some (lit "/tmp/tmpa1b2c3.wav");
     wave_write_raises := false;
     model_path_exists := true;
     whisper_run := TimeoutExpired;
     clipboard_raises := false;
     save_raises := false;
     record_path := lit "transcriptions/transcription_20240101_120000.json";
     unlink_raises := false;
     stream_open_raises := false;
     stream_reads := [] |}.

(** The same world, but the engine answers within the time limit. *)
Definition world1 : world :=
  {| NOTIFY_SEND_AVAILABLE := true;
     PLYER_AVAILABLE := false;
     notify_send_raises := fun _ => false;
     temp_file := Some (lit "/tmp/tmpa1b2c3.wav");
     wave_write_raises := false;
     model_path_exists := true;
     whisper_run := Completed 0 (lit " Hello world. ") (lit "");
     clipboard_raises := false;
     save_raises := false;
     record_path := lit "transcriptions/transcription_20240101_120000.json";
     unlink_raises := false;
     stream_open_raises := false;
     stream_reads := [] |}.

(** The engine answers [you]. *)
Definition world_you : world :=
  {| NOTIFY_SEND_AVAILABLE := false;
     PLYER_AVAILABLE := false;
     notify_send_raises := fun _ => false;
     temp_file := Some (lit "/tmp/tmpa1b2c3.wav");
     wave_write_raises := false;
     model_path_exists := true;
     whisper_run := Completed 0 (lit " you
") (lit "");
     clipboard_raises := false;
     save_raises := false;
     record_path := lit "transcriptions/transcription_20240101_120000.json";
     unlink_raises := false;
     stream_open_raises := false;
     stream_reads := [Data [0%N]; Data [1%N]] |}.

(** A session of five chunks, 0.32 s of audio. *)
Definition long0 : state :=
  {| is_recording := true;
     audio_frames := [[0%N]; [0%N]; [0%N]; [0%N]; [0%N]];
     open_streams := 1; files := []; log := [] |}.

Definition idle0 : state :=
  {| is_recording := false; audio_frames := []; open_streams := 0;
     files := []; log := [] |}.

(** A session of three chunks, 0.192 s of audio, at the moment the key is
    released. *)
Definition short0 : state :=
  {| is_recording := true; audio_frames := [[0%N]; [0%N]; [0%N]];
     open_streams := 1; files := [];
     log := [] |}.

(* ================================================================== *)
(** * Worked examples *)
(* ================================================================== *)

Example split_example :
  split (lit "  ab   c d ") = [lit "ab"; lit "c"; lit "d"].
Proof. reflexivity. Qed.

Example strip_example :
  strip (char_in (lit " .,!?;-")) (lit "- Hello, world. ") = lit "Hello, world".
Proof. reflexivity. Qed.

Example re_sub_example :
  re_sub hms (lit "at 12:34:56 and 01:02:03.") = lit "at  and .".
Proof. reflexivity. Qed.

(** The engine's answer to three seconds of silence is rejected. *)
Example silence_rejected :
  _clean_transcription (strip isspace (lit "[00:00:00.000 --> 00:00:03.000]  "))
  = None.
Proof. reflexivity. Qed.

Example marker_and_text :
  _clean_transcription (lit "[00:00:00.000   -->  00:00:02.000]   Hello,   world. ")
  = Some (lit "Hello, world").
Proof. reflexivity. Qed.

(** A press while idle: the notification on the console, the stream
    opened, two chunks read, the stream closed. *)
Example start_recording_example :
  start_recording world_you idle0 =
    {| is_recording := false;
       audio_frames := [[0%N]; [1%N]];
       open_streams := 0;
       files := [];
       log := [ConsoleNotify (lit "Start") (lit "Recording..."); OpenStream;
               ReadChunk; ReadChunk; CloseStream] |}.
Proof. reflexivity. Qed.

(** A whole cycle in which the engine answers [you]. *)
Example cycle_delivers_you :
  stop_recording_and_transcribe cfg0 world_you long0 =
    {| is_recording := false;
       audio_frames := audio_frames long0;
       open_streams := 1;
       files := [];
       log :=
         [ConsoleNotify (lit "Processing") (lit "Transcribing...");
          TempFile (lit "/tmp/tmpa1b2c3.wav");
          WaveWrite (lit "/tmp/tmpa1b2c3.wav") (audio_frames long0);
          RunWhisper
            (whisper_cmd cfg0 (lit "ggml-large-v3.bin")
               (lit "/tmp/tmpa1b2c3.wav"));
          ClipboardCopy (lit "you");
          SaveJson (lit "transcriptions/transcription_20240101_120000.json")
            (lit "you") (audio_duration (audio_frames long0));
          ConsoleNotify (lit "Completed") (lit "Transcribed");
          Unlink (lit "/tmp/tmpa1b2c3.wav")] |}.
Proof. reflexivity. Qed.

(* ================================================================== *)
(** * Properties of the recording cycle *)
(* ================================================================== *)

Lemma append_log_nil st : append_log [] st = st.
Proof. destruct st; unfold append_log; cbn. now rewrite app_nil_r. Qed.

Lemma emit_append e st : emit e st = append_log [e] st.
Proof. reflexivity. Qed.

Lemma append_log_append a b st :
  append_log b (append_log a st) = append_log (a ++ b) st.
Proof. unfold append_log; cbn. now rewrite app_assoc. Qed.

Lemma set_recording_append b es st :
  set_recording b (append_log es st) = append_log es (set_recording b st).
Proof. reflexivity. Qed.

Lemma lstrip_all p s : forallb p s = true -> lstrip p s = [].
Proof.
  induction s as [|c s IH]; cbn; [reflexivity|].
  intros H. apply andb_true_iff in H as [Hc Hs]. now rewrite Hc, IH.
Qed.

Lemma strip_all p s : forallb p s = true -> strip p s = [].
Proof. intros H. unfold strip. now rewrite lstrip_all. Qed.

(** What [_send_notification] does: it appends notification events that
    all carry the given title, at least one when neither text is blank. *)
Lemma send_notification_spec w title message timeout icon st :
  exists notes,
    _send_notification w title message timeout icon st = append_log notes st
    /\ Forall (fun e => notification_title e = Some title) notes
    /\ (is_empty (strip isspace title) || is_empty (strip isspace message) = false
        -> notes <> []).
Proof.
  unfold _send_notification.
  destruct (is_empty (strip isspace title) || is_empty (strip isspace message)).
  - exists []. rewrite append_log_nil. repeat split; auto; discriminate.
  - destruct (NOTIFY_SEND_AVAILABLE w), (notify_send_raises w title),
      (PLYER_AVAILABLE w); rewrite ?emit_append, ?append_log_append;
      eexists; (split; [reflexivity|]); split;
      try (intros _; discriminate); repeat constructor.
Qed.

Lemma str_eqb_refl s : str_eqb s s = true.
Proof.
  induction s as [|c s IH]; cbn; [reflexivity|].
  unfold char_eqb. now rewrite N.eqb_refl, IH.
Qed.

Lemma str_eqb_eq a b : str_eqb a b = true <-> a = b.
Proof.
  split; [|intros ->; apply str_eqb_refl].
  revert b; induction a as [|x a IH]; intros [|y b]; cbn; try discriminate; auto.
  intros H. apply andb_true_iff in H as [Hx Hab].
  apply N.eqb_eq in Hx. subst. f_equal. now apply IH.
Qed.





(* ------------------------------------------------------------------ *)
(** ** Notifications with a blank title or message *)

(** C10. For every title and message of which one is empty or consists
    only of whitespace, [_send_notification] returns at once: the state,
    and with it the log of external calls, is unchanged, so none of
    notify-send, plyer and the console fallback is invoked. *)
Theorem send_notification_blank_noop :
  forall w title message timeout icon st,
    forallb isspace title = true \/ forallb isspace message = true ->
    _send_notification w title message timeout icon st = st.
Proof.
  intros w title message timeout icon st H.
  unfold _send_notification.
  destruct H as [H|H]; rewrite (strip_all _ _ H); cbn.
  - reflexivity.
  - now rewrite orb_true_r.
Qed.

Lemma send_notification_blank_noop_witness :
  forallb isspace (lit "  ") = true
  /\ _send_notification world0 (lit "  ") (lit "Recording...") 1 None idle0 = idle0.
Proof.
  split; [reflexivity|].
  apply (send_notification_blank_noop world0 (lit "  ") (lit "Recording...") 1 None idle0).
  left. reflexivity.
Defined.

(* ------------------------------------------------------------------ *)
(** ** Re-entrant presses and releases *)

(** C8. While a recording is in progress [start_recording] changes
    nothing (flag, frames, capture stream, files and log, hence no
    notification) and a press of the key starts no thread; while no
    recording is in progress [stop_recording_and_transcribe] changes
    nothing (no encode, no subprocess, no delivery) and a release of the
    key starts no thread. *)
Theorem reentrant_calls_are_noops :
  forall cfg w k rec idle,
    is_recording rec = true ->
    is_recording idle = false ->
    (start_recording w rec = rec /\ on_key_press k rec = None)
    /\ (stop_recording_and_transcribe cfg w idle = idle
        /\ on_key_release k idle = None).
Proof.
  intros cfg w k rec idle Hrec Hidle.
  unfold start_recording, stop_recording_and_transcribe,
    on_key_press, on_key_release.
  rewrite Hrec, Hidle. cbn.
  repeat split; now destruct (key_eqb k push_to_talk_key).
Qed.

Lemma reentrant_calls_are_noops_witness :
  (start_recording world0 short0 = short0 /\ on_key_press alt_l short0 = None)
  /\ (stop_recording_and_transcribe cfg0 world0 idle0 = idle0
      /\ on_key_release alt_l idle0 = None).
Proof.
  apply (reentrant_calls_are_noops cfg0 world0 alt_l short0 idle0);
    reflexivity.
Defined.

(* ------------------------------------------------------------------ *)
(** ** Sessions that are too short *)






(* ------------------------------------------------------------------ *)
(** ** The functions of the cycle only add to the log *)





(* ------------------------------------------------------------------ *)
(** ** Cleaning up the temporary file *)



(* ------------------------------------------------------------------ *)
(** ** Engine timeouts *)

(** C7. When the model file is there and the engine does not finish
    within its 30 s, [_transcribe_audio] returns no transcript; it has run
    the engine once and only once, and has then sent a notification under
    the title of the timeout, which no other notification of the program
    carries.  In any world [w'], a transcript is returned only if the
    engine exited with code zero, and it is then the filtered standard
    output. *)
Theorem timeout_is_reported_failure :
  forall cfg w w' audio_path st c m,
    model_path cfg = Some (c :: m) ->
    model_path_exists w = true ->
    whisper_run w = TimeoutExpired ->
    (exists notes,
        _transcribe_audio cfg w audio_path st =
          (None,
           append_log
             (RunWhisper (whisper_cmd cfg (c :: m) audio_path) :: notes) st)
        /\ notes <> []
        /\ Forall (fun e => notification_title e = Some timeout_title) notes)
    /\ ~ In timeout_title [lit "Start"; lit "Processing"; lit "Completed"]
    /\ (fst (_transcribe_audio cfg w' audio_path st) = None
        \/ exists stdout stderr,
             whisper_run w' = Completed 0 stdout stderr
             /\ fst (_transcribe_audio cfg w' audio_path st)
                = _clean_transcription (strip isspace stdout)).
Proof.
  intros cfg w w' audio_path st c m Hm Hex Hto.
  split; [|split].
  - unfold _transcribe_audio. rewrite Hm, Hex, Hto. cbn [negb].
    destruct (send_notification_spec w timeout_title
                (lit "Audio processing took too long") 5 None
                (emit (RunWhisper (whisper_cmd cfg (c :: m) audio_path)) st))
      as (notes & -> & Htitle & Hne).
    exists notes. rewrite emit_append, append_log_append.
    repeat split; [|exact Htitle]. apply Hne. reflexivity.
  - intros [H|[H|[H|[]]]]; discriminate H.
  - unfold _transcribe_audio. rewrite Hm.
    destruct (model_path_exists w'); cbn [negb]; [|now left].
    destruct (whisper_run w') as [rc out err| |]; cbn [fst]; try now left.
    destruct (rc =? 0)%Z eqn:Hrc; [|now left].
    apply Z.eqb_eq in Hrc. subst rc. right. now exists out, err.
Qed.

Lemma timeout_is_reported_failure_witness :
  (exists notes,
      _transcribe_audio cfg0 world0 (lit "/tmp/tmpa1b2c3.wav") short0 =
        (None,
         append_log
           (RunWhisper
              (whisper_cmd cfg0 (lit "ggml-large-v3.bin")
                 (lit "/tmp/tmpa1b2c3.wav")) :: notes) short0)
      /\ notes <> []
      /\ Forall (fun e => notification_title e = Some timeout_title) notes)
  /\ ~ In timeout_title [lit "Start"; lit "Processing"; lit "Completed"]
  /\ (fst (_transcribe_audio cfg0 world1 (lit "/tmp/tmpa1b2c3.wav") short0)
      = None
      \/ exists stdout stderr,
           whisper_run world1 = Completed 0 stdout stderr
           /\ fst (_transcribe_audio cfg0 world1 (lit "/tmp/tmpa1b2c3.wav")
                     short0)
              = _clean_transcription (strip isspace stdout)).
Proof.
  apply (timeout_is_reported_failure cfg0 world0 world1
           (lit "/tmp/tmpa1b2c3.wav") short0 103%N (lit "gml-large-v3.bin"));
    reflexivity.
Defined.

(* ================================================================== *)
(** * Facts about the string operations *)
(* ================================================================== *)

Module PyStrFacts.

Local Open Scope N_scope.

Lemma isspace_spec c :
  isspace c = true <->
  (9 <= c <= 13 \/ 28 <= c <= 32 \/ c = 133 \/ c = 160 \/ c = 5760
   \/ 8192 <= c <= 8202 \/ c = 8232 \/ c = 8233 \/ c = 8239 \/ c = 8287
   \/ c = 12288).
Proof.
  unfold isspace.
  rewrite !orb_true_iff, !andb_true_iff, !N.leb_le, !N.eqb_eq. lia.
Qed.

Lemma isdigit_spec c : isdigit c = true <-> 48 <= c <= 57.
Proof. unfold isdigit. now rewrite andb_true_iff, !N.leb_le. Qed.

Lemma lower_char_spec c :
  (lower_char c = c + 32 /\ (65 <= c <= 90 \/ (192 <= c <= 222 /\ c <> 215)))
  \/ (lower_char c = c /\ ~ (65 <= c <= 90 \/ (192 <= c <= 222 /\ c <> 215))).
Proof.
  unfold lower_char.
  destruct ((65 <=? c) && (c <=? 90)
            || (192 <=? c) && (c <=? 222) && negb (c =? 215)) eqn:E.
  - left. split; [reflexivity|].
    rewrite orb_true_iff, !andb_true_iff, negb_true_iff, !N.leb_le,
      N.eqb_neq in E. lia.
  - right. split; [reflexivity|]. intros H.
    rewrite <- not_true_iff_false in E. apply E.
    rewrite orb_true_iff, !andb_true_iff, negb_true_iff, !N.leb_le,
      N.eqb_neq. lia.
Qed.

Lemma isspace_lower c : isspace (lower_char c) = isspace c.
Proof.
  apply eq_iff_eq_true. rewrite !isspace_spec.
  destruct (lower_char_spec c) as [[-> H]|[-> H]]; lia.
Qed.

Lemma isdigit_lower c : isdigit (lower_char c) = isdigit c.
Proof.
  apply eq_iff_eq_true. rewrite !isdigit_spec.
  destruct (lower_char_spec c) as [[-> H]|[-> H]]; lia.
Qed.

Lemma isdigit_not_space c : isdigit c = true -> isspace c = false.
Proof.
  intros H. apply isdigit_spec in H. apply not_true_iff_false.
  rewrite isspace_spec. lia.
Qed.

Lemma char_eqb_eq a b : char_eqb a b = true <-> a = b.
Proof. apply N.eqb_eq. Qed.

Section Strip.

Variable p : char -> bool.

Lemma lstrip_length s : (List.length (lstrip p s) <= List.length s)%nat.
Proof.
  induction s as [|c s IH]; cbn; [lia|]. destruct (p c); cbn; lia.
Qed.

Lemma rstrip_length s : (List.length (rstrip p s) <= List.length s)%nat.
Proof.
  induction s as [|c s IH]; cbn; [lia|].
  destruct (rstrip p s); [destruct (p c)|]; cbn in *; lia.
Qed.

Lemma strip_length s : (List.length (strip p s) <= List.length s)%nat.
Proof.
  unfold strip. pose proof (rstrip_length (lstrip p s)).
  pose proof (lstrip_length s). lia.
Qed.

Lemma lstrip_forallb q s :
  forallb q s = true -> forallb q (lstrip p s) = true.
Proof.
  induction s as [|c s IH]; cbn; [auto|]. intros H.
  destruct (p c); [|exact H].
  apply andb_true_iff in H as [_ H]. auto.
Qed.

Lemma rstrip_forallb q s :
  forallb q s = true -> forallb q (rstrip p s) = true.
Proof.
  induction s as [|c s IH]; cbn; [auto|]. intros H.
  apply andb_true_iff in H as [Hc H]. specialize (IH H).
  destruct (rstrip p s); [destruct (p c)|]; cbn in *; rewrite ?Hc; auto.
Qed.

Lemma strip_forallb q s :
  forallb q s = true -> forallb q (strip p s) = true.
Proof. intros H. unfold strip. now apply rstrip_forallb, lstrip_forallb. Qed.

Lemma rstrip_nil s : rstrip p s = [] -> forallb p s = true.
Proof.
  induction s as [|c s IH]; cbn; [auto|].
  destruct (rstrip p s); [|discriminate].
  destruct (p c); [|discriminate]. auto.
Qed.

Lemma rstrip_all s : forallb p s = true -> rstrip p s = [].
Proof.
  induction s as [|c s IH]; cbn; [auto|]. intros H.
  apply andb_true_iff in H as [Hc H]. now rewrite IH, Hc.
Qed.

(** The head of a string that [lstrip] leaves is not in the set. *)
Lemma lstrip_head s c r : lstrip p s = c :: r -> p c = false.
Proof.
  induction s as [|x s IH]; cbn; [discriminate|].
  destruct (p x) eqn:E; [exact IH|]. intros H. now injection H as <- _.
Qed.

Lemma lstrip_fixed c r : p c = false -> lstrip p (c :: r) = c :: r.
Proof. intros H. cbn. now rewrite H. Qed.

(** [rstrip] keeps the head of what it does not erase. *)
Lemma rstrip_head s c r :
  rstrip p s = c :: r -> exists r', s = c :: r'.
Proof.
  destruct s as [|x s]; cbn; [discriminate|].
  destruct (rstrip p s); [destruct (p x); [discriminate|]|];
    intros H; injection H as <- _; eauto.
Qed.

Lemma rstrip_idem s : rstrip p (rstrip p s) = rstrip p s.
Proof.
  induction s as [|c s IH]; cbn; [reflexivity|].
  destruct (rstrip p s) as [|d r] eqn:E.
  - destruct (p c) eqn:Ec; cbn; [reflexivity|now rewrite Ec].
  - change (rstrip p (c :: d :: r))
      with (match rstrip p (d :: r) with
            | [] => if p c then [] else [c]
            | x :: l => c :: x :: l
            end).
    now rewrite IH.
Qed.

Lemma strip_nil s : strip p s = [] -> forallb p s = true.
Proof.
  unfold strip. intros H. apply rstrip_nil in H.
  destruct (lstrip p s) as [|c r] eqn:E.
  - clear H. induction s as [|x s IH]; cbn in *; [reflexivity|].
    destruct (p x); [auto|discriminate].
  - apply lstrip_head in E. cbn in H. now rewrite E in H.
Qed.

Lemma strip_idem s : strip p (strip p s) = strip p s.
Proof.
  unfold strip. destruct (rstrip p (lstrip p s)) as [|c r] eqn:E.
  - reflexivity.
  - destruct (rstrip_head _ _ _ E) as (r' & Hr').
    apply lstrip_head in Hr'. rewrite (lstrip_fixed c r Hr'), <- E.
    apply rstrip_idem.
Qed.

(** A string is its stripped part between two runs of the set. *)
Lemma lstrip_decompose s :
  exists l, s = l ++ lstrip p s /\ forallb p l = true.
Proof.
  induction s as [|c s (l & Hl & Hp)]; [now exists []|]. cbn.
  destruct (p c) eqn:E.
  - exists (c :: l). cbn. now rewrite E, Hp, <- Hl.
  - now exists [].
Qed.

Lemma rstrip_decompose s :
  exists r, s = rstrip p s ++ r /\ forallb p r = true.
Proof.
  induction s as [|c s (r & Hr & Hp)]; [now exists []|]. cbn.
  destruct (rstrip p s) as [|d t] eqn:E.
  - cbn in Hr. subst s.
    destruct (p c) eqn:Ec; [exists (c :: r)|exists r]; cbn;
      rewrite ?Ec; auto.
  - exists r. cbn in Hr |- *. rewrite <- Hr. auto.
Qed.

Lemma strip_decompose s :
  exists l r,
    s = l ++ strip p s ++ r /\ forallb p l = true /\ forallb p r = true.
Proof.
  destruct (lstrip_decompose s) as (l & Hl & Hpl).
  destruct (rstrip_decompose (lstrip p s)) as (r & Hr & Hpr).
  exists l, r. unfold strip. now rewrite <- Hr, <- Hl.
Qed.

End Strip.

End PyStrFacts.

(* ================================================================== *)
(** * Facts about [split] and [join] *)
(* ================================================================== *)

Module SplitFacts.

Import PyStrFacts.
Local Open Scope N_scope.

Lemma split_space c r : isspace c = true -> split (c :: r) = split r.
Proof. intros H. cbn. now rewrite H. Qed.

Lemma split_letter c r :
  isspace c = false ->
  split (c :: r) =
    match r with
    | [] => [[c]]
    | e :: _ =>
        if isspace e then [c] :: split r
        else match split r with
             | w :: ws => (c :: w) :: ws
             | [] => [[c]]
             end
    end.
Proof. intros H. cbn. now rewrite H. Qed.

Lemma join_cons_head c w ws : join sp ((c :: w) :: ws) = c :: join sp (w :: ws).
Proof. now destruct ws. Qed.

Lemma split_spaces s : forallb isspace s = true -> split s = [].
Proof.
  induction s as [|c s IH]; [reflexivity|]. intros H.
  apply andb_true_iff in H as [Hc H]. rewrite split_space; auto.
Qed.

Lemma split_app_spaces l s :
  forallb isspace l = true -> split (l ++ s) = split s.
Proof.
  induction l as [|c l IH]; [reflexivity|]. intros H.
  apply andb_true_iff in H as [Hc H]. cbn [app]. rewrite split_space; auto.
Qed.


(** [split] and [join] keep every property of the characters. *)
Lemma split_forallb q s :
  forallb q s = true -> forallb (forallb q) (split s) = true.
Proof.
  induction s as [|c s IH]; [reflexivity|]. intros H.
  pose proof H as H'. cbn in H'. apply andb_true_iff in H' as [Hc Hs].
  specialize (IH Hs).
  destruct (isspace c) eqn:E; [now rewrite split_space|].
  rewrite split_letter by exact E.
  destruct s as [|e s]; [cbn; now rewrite Hc|].
  destruct (isspace e).
  - cbn [forallb]. rewrite IH. cbn. now rewrite Hc.
  - destruct (split (e :: s)) as [|w ws]; [cbn; now rewrite Hc|].
    cbn in IH |- *. now rewrite Hc.
Qed.

Lemma join_forallb q ws :
  q 32 = true -> forallb (forallb q) ws = true ->
  forallb q (join sp ws) = true.
Proof.
  intros Hq. induction ws as [|w ws IH]; [reflexivity|]. intros H.
  cbn in H. apply andb_true_iff in H as [Hw Hws].
  destruct ws as [|w' ws]; [exact Hw|].
  change (join sp (w :: w' :: ws)) with (w ++ sp ++ join sp (w' :: ws)).
  rewrite !forallb_app, Hw. cbn [andb].
  apply andb_true_iff. split; [cbn; now rewrite Hq|exact (IH Hws)].
Qed.

(** The words of [split] are not empty and hold no whitespace. *)
Lemma split_words s : forallb word (split s) = true.
Proof.
  induction s as [|c s IH]; [reflexivity|].
  destruct (isspace c) eqn:E; [now rewrite split_space|].
  rewrite split_letter by exact E.
  destruct s as [|e s]; [cbn; now rewrite E|].
  destruct (isspace e).
  - cbn [forallb]. rewrite IH. cbn. now rewrite E.
  - destruct (split (e :: s)) as [|w ws]; [cbn; now rewrite E|].
    cbn in IH |- *. unfold word, nospace in *. cbn. rewrite E. cbn.
    apply andb_true_iff in IH as [IH ->]. apply andb_true_iff in IH as [_ ->].
    reflexivity.
Qed.

(** Collapsing whitespace never makes a text longer. *)
Lemma join_split_length_aux s :
  (List.length (join sp (split s))
   + (if no_leading_space s then 0 else 1) <= List.length s)%nat.
Proof.
  induction s as [|c s IH]; [cbn; lia|].
  cbn [no_leading_space List.length].
  destruct (isspace c) eqn:E.
  - rewrite split_space by exact E. cbn [negb].
    destruct (no_leading_space s); lia.
  - rewrite split_letter by exact E. cbn [negb].
    destruct s as [|e s]; [cbn; lia|].
    cbn [no_leading_space] in IH.
    destruct (isspace e) eqn:Ee; cbn [negb] in IH.
    + destruct (split (e :: s)) as [|w ws] eqn:Es; [cbn; lia|].
      change (join sp ([c] :: w :: ws)) with (c :: sp ++ join sp (w :: ws)).
      cbn [List.length app sp lit map list_ascii_of_string] in *. lia.
    + destruct (split (e :: s)) as [|w ws]; [cbn; lia|].
      rewrite join_cons_head. cbn [List.length] in *. lia.
Qed.

Lemma join_split_length s :
  (List.length (join sp (split s)) <= List.length s)%nat.
Proof. pose proof (join_split_length_aux s). lia. Qed.

End SplitFacts.

(* ================================================================== *)
(** * Collapsed and trimmed text is a fixed point of both steps *)
(* ================================================================== *)

Module TidyFacts.

Import PyStrFacts SplitFacts.
Local Open Scope N_scope.

Lemma single_spaced_tail c r : single_spaced (c :: r) = true -> single_spaced r = true.
Proof. cbn. intros H. now apply andb_true_iff in H as [_ H]. Qed.

(** In a single-spaced text whitespace is U+0020. *)
Lemma single_spaced_head c r :
  single_spaced (c :: r) = true -> isspace c = true -> c = 32.
Proof.
  cbn. intros H Hc. rewrite Hc in H.
  apply andb_true_iff in H as [H _]. apply andb_true_iff in H as [H _].
  now apply char_eqb_eq.
Qed.

Lemma single_spaced_app w x :
  nospace w = true -> single_spaced x = true -> single_spaced (w ++ x) = true.
Proof.
  intros Hw Hx. induction w as [|c w IH]; [exact Hx|].
  cbn in Hw. apply andb_true_iff in Hw as [Hc Hw].
  apply negb_true_iff in Hc. cbn. now rewrite Hc, IH.
Qed.

Lemma join_words ws :
  forallb word ws = true ->
  single_spaced (join sp ws) = true
  /\ no_leading_space (join sp ws) = true
  /\ (ws <> [] -> join sp ws <> []).
Proof.
  induction ws as [|w ws IH]; [now repeat split|]. intros H.
  cbn in H. apply andb_true_iff in H as [Hw Hws].
  apply andb_true_iff in Hw as [Hne Hns].
  destruct w as [|c w]; [discriminate|].
  assert (Hc : isspace c = false).
  { cbn in Hns. apply andb_true_iff in Hns as [Hc _].
    now apply negb_true_iff. }
  destruct ws as [|w' ws].
  - cbn [join]. repeat split.
    + rewrite <- (app_nil_r (c :: w)). now apply single_spaced_app.
    + cbn. now rewrite Hc.
    + discriminate.
  - destruct (IH Hws) as (Hss & Hnl & Hnn).
    change (join sp ((c :: w) :: w' :: ws))
      with ((c :: w) ++ 32 :: join sp (w' :: ws)).
    repeat split.
    + apply single_spaced_app; [exact Hns|].
      destruct (join sp (w' :: ws)) as [|e j] eqn:Ej;
        [now exfalso; apply Hnn|].
      cbn in Hnl.
      change (single_spaced (32 :: e :: j))
        with ((if isspace 32 then char_eqb 32 32 && negb (isspace e)
               else true) && single_spaced (e :: j)).
      rewrite Hnl, Hss. reflexivity.
    + cbn. now rewrite Hc.
    + discriminate.
Qed.

Section Trim.

Variable p : char -> bool.
Hypothesis p_space : p 32 = true.

Lemma lstrip_single_spaced s :
  single_spaced s = true -> single_spaced (lstrip p s) = true.
Proof.
  induction s as [|c s IH]; [auto|]. intros H. cbn [lstrip].
  destruct (p c); [|exact H]. apply IH. exact (single_spaced_tail _ _ H).
Qed.

Lemma lstrip_no_leading s :
  single_spaced s = true -> no_leading_space (lstrip p s) = true.
Proof.
  induction s as [|c s IH]; [auto|]. intros H. cbn [lstrip].
  destruct (p c) eqn:Ec; [apply IH; exact (single_spaced_tail _ _ H)|].
  cbn. destruct (isspace c) eqn:Es; [|reflexivity].
  rewrite (single_spaced_head _ _ H Es) in Ec. congruence.
Qed.

Lemma rstrip_single_spaced s :
  single_spaced s = true -> single_spaced (rstrip p s) = true.
Proof.
  induction s as [|c s IH]; [auto|]. intros H.
  specialize (IH (single_spaced_tail _ _ H)). cbn [rstrip].
  destruct (rstrip p s) as [|e t] eqn:E.
  - destruct (p c) eqn:Ec; [reflexivity|]. cbn.
    destruct (isspace c) eqn:Es; [|reflexivity].
    rewrite (single_spaced_head _ _ H Es) in Ec. congruence.
  - destruct (rstrip_head _ _ _ _ E) as (r' & ->).
    cbn in H |- *. cbn in IH. rewrite IH.
    apply andb_true_iff in H as [H _]. now rewrite H.
Qed.

Lemma rstrip_no_leading s :
  no_leading_space s = true -> no_leading_space (rstrip p s) = true.
Proof.
  intros H. destruct (rstrip p s) as [|c r] eqn:E; [reflexivity|].
  destruct (rstrip_head _ _ _ _ E) as (r' & ->). exact H.
Qed.

End Trim.

Lemma join_split_single_spaced s :
  single_spaced s = true -> join sp (split s) = lstrip isspace s.
Proof.
  induction s as [|c s IH]; [reflexivity|]. intros H.
  specialize (IH (single_spaced_tail _ _ H)). cbn [lstrip].
  destruct (isspace c) eqn:E; [now rewrite split_space|].
  rewrite split_letter by exact E.
  destruct s as [|e s]; [reflexivity|].
  cbn [lstrip] in IH. destruct (isspace e) eqn:Ee.
  - pose proof (single_spaced_head _ _ (single_spaced_tail _ _ H) Ee) as ->.
    apply single_spaced_tail in H. cbn in H.
    destruct s as [|x s]; [discriminate|].
    apply andb_true_iff in H as [Hx _]. apply negb_true_iff in Hx.
    cbn [lstrip] in IH. rewrite Hx in IH.
    destruct (split (32 :: x :: s)) as [|w ws]; [discriminate|].
    change (join sp ([c] :: w :: ws)) with (c :: 32 :: join sp (w :: ws)).
    now rewrite IH.
  - destruct (split (e :: s)) as [|w ws]; [discriminate|].
    rewrite join_cons_head. now rewrite IH.
Qed.

(** The text the filter judges is unchanged by collapsing whitespace and
    by trimming again. *)
Lemma tidy_fixed p y :
  p 32 = true ->
  let t := strip p (join sp (split y)) in
  join sp (split t) = t /\ strip p t = t.
Proof.
  intros Hp t. split; [|apply strip_idem].
  destruct (join_words (split y) (split_words y)) as (Hss & Hnl & _).
  assert (Hss' : single_spaced t = true).
  { apply rstrip_single_spaced, lstrip_single_spaced; assumption. }
  assert (Hnl' : no_leading_space t = true).
  { apply rstrip_no_leading, lstrip_no_leading; assumption. }
  rewrite (join_split_single_spaced _ Hss').
  destruct t as [|c r]; [reflexivity|].
  cbn in Hnl'. cbn. apply negb_true_iff in Hnl'. now rewrite Hnl'.
Qed.

End TidyFacts.

(* ================================================================== *)
(** * Facts about matching and substitution *)
(* ================================================================== *)

Module ReFacts.

Import PyStrFacts.
Local Open Scope N_scope.

Section Sub.

Variable pat : pattern.

(** [re.sub] with an empty replacement only deletes characters. *)
Lemma sub_from_forallb q s :
  forallb q s = true -> forall k, forallb q (sub_from pat k s) = true.
Proof.
  induction s as [|c s IH]; [reflexivity|]. intros H k.
  cbn in H. apply andb_true_iff in H as [Hc Hs]. specialize (IH Hs).
  cbn [sub_from]. destruct k; [|apply IH].
  destruct (match_here pat (c :: s)) as [[|n]|]; cbn [forallb];
    rewrite ?Hc; apply IH.
Qed.

Lemma sub_from_length s :
  forall k, (List.length (sub_from pat k s) <= List.length s)%nat.
Proof.
  induction s as [|c s IH]; [cbn; lia|]. intros k. cbn [sub_from].
  destruct k as [|k]; [|specialize (IH k); cbn; lia].
  destruct (match_here pat (c :: s)) as [[|n]|];
    [specialize (IH 0%nat)|specialize (IH n)|specialize (IH 0%nat)];
    cbn; lia.
Qed.

(** A pass that deletes nothing leaves the text as it is. *)
Lemma re_sub_same_length s :
  List.length (re_sub pat s) = List.length s -> re_sub pat s = s.
Proof.
  unfold re_sub. induction s as [|c s IH]; [reflexivity|].
  cbn [sub_from].
  destruct (match_here pat (c :: s)) as [[|n]|]; cbn [List.length]; intros H.
  - f_equal. apply IH. lia.
  - pose proof (sub_from_length s n). lia.
  - f_equal. apply IH. lia.
Qed.

Lemma re_sub_length s :
  (List.length (re_sub pat s) <= List.length s)%nat.
Proof. apply sub_from_length. Qed.


(** Skipping a whole prefix. *)
Lemma sub_from_skip a s :
  sub_from pat (List.length a) (a ++ s) = sub_from pat 0 s.
Proof.
  induction a as [|c a IH]; [reflexivity|]. exact IH.
Qed.

End Sub.

(** The three timestamp patterns need a digit in the first or second
    place. *)
Lemma hms_needs_digit s :
  match s with c :: _ => isdigit c = false | [] => True end ->
  match_here hms s = None.
Proof. destruct s as [|c s]; [reflexivity|]. cbn. now intros ->. Qed.

Lemma hms_ms_needs_digit s :
  match s with c :: _ => isdigit c = false | [] => True end ->
  match_here hms_ms s = None.
Proof. destruct s as [|c s]; [reflexivity|]. cbn. now intros ->. Qed.





(** [p*$] at the start of a string, for a class that holds the newline:
    the whole string is in the class. *)
Lemma star_eos p s :
  p 10 = true ->
  (star p (match_here [Eos]) s <> None) <-> forallb p s = true.
Proof.
  intros Hnl. induction s as [|c s IH]; [cbn; split; congruence|].
  cbn [star forallb]. destruct (p c) eqn:Ec.
  - cbn [andb]. destruct (star p (match_here [Eos]) s) eqn:E.
    + split; [intros _; apply IH|]; congruence.
    + split; [|intros H; apply IH in H; congruence].
      cbn. destruct s as [|e s]; [reflexivity|].
      intros H. now contradiction H.
  - cbn. split; [|discriminate]. destruct s as [|e s]; [|congruence].
    destruct (char_eqb c 10) eqn:E10; [|congruence].
    apply char_eqb_eq in E10. congruence.
Qed.

Lemma re_match_digits_punct s :
  re_match digits_punct s = forallb digits_punct_class s.
Proof.
  unfold re_match.
  change (match_here digits_punct s)
    with (star digits_punct_class (match_here [Eos]) s).
  assert (Hnl : digits_punct_class 10 = true) by reflexivity.
  pose proof (star_eos digits_punct_class s Hnl) as H.
  destruct (star digits_punct_class (match_here [Eos]) s);
    destruct (forallb digits_punct_class s); try reflexivity.
  - symmetry. apply H. discriminate.
  - exfalso. now apply (proj2 H).
Qed.

End ReFacts.

(* ================================================================== *)
(** * The transcript filter: cleaning, then judging *)
(* ================================================================== *)

Module FilterFacts.

Import PyStrFacts SplitFacts TidyFacts ReFacts.
Local Open Scope N_scope.

Lemma clean_judge raw : _clean_transcription raw = judge (cleaned raw).
Proof. destruct raw; reflexivity. Qed.

(** What the filter returns is the cleaned text. *)
Lemma judge_some text out : judge text = Some out -> out = text.
Proof.
  unfold judge.
  repeat match goal with
         | |- (if ?b then _ else _) = _ -> _ => destruct b
         | |- (let _ := _ in _) = _ -> _ => cbv zeta
         end; congruence.
Qed.

Lemma clean_some raw out :
  _clean_transcription raw = Some out -> out = cleaned raw.
Proof. rewrite clean_judge. apply judge_some. Qed.


Lemma lower_forallb q s :
  (forall c, q (lower_char c) = q c) -> forallb q (lower s) = forallb q s.
Proof.
  intros Hq. unfold lower. induction s as [|c s IH]; [reflexivity|].
  cbn. now rewrite Hq, IH.
Qed.

(** The characters of the two punctuation sets are their own lower case. *)
Lemma punct_spec c :
  char_in (lit ".,!?;:") c = true <->
  (c = 46 \/ c = 44 \/ c = 33 \/ c = 63 \/ c = 59 \/ c = 58).
Proof.
  cbn. unfold char_eqb.
  rewrite !orb_true_iff, !N.eqb_eq. intuition discriminate.
Qed.


Lemma digits_punct_class_spec c :
  digits_punct_class c = true <->
  (isdigit c = true \/ isspace c = true \/ char_in (lit ".,!?;:") c = true).
Proof.
  unfold digits_punct_class. rewrite !orb_true_iff. tauto.
Qed.

Lemma digits_punct_class_lower c :
  digits_punct_class (lower_char c) = digits_punct_class c.
Proof.
  apply eq_iff_eq_true. rewrite !digits_punct_class_spec.
  rewrite isdigit_lower, isspace_lower, !punct_spec.
  rewrite isdigit_spec, isspace_spec.
  destruct (lower_char_spec c) as [[-> H]|[-> H]]; [lia|tauto].
Qed.


(** A whitelisted word holds a character outside the class of digits,
    whitespace and punctuation. *)
Lemma meaningful_has_letter w :
  str_in w meaningful_single_words = true ->
  forallb digits_punct_class w = false.
Proof.
  unfold str_in, meaningful_single_words. cbn [existsb].
  rewrite !orb_true_iff.
  intros H. repeat destruct H as [H|H];
    try discriminate; apply str_eqb_eq in H; now subst w.
Qed.

Lemma hd_forallb q (ws : list (list N)) :
  forallb (forallb q) ws = true -> forallb q (word0 ws) = true.
Proof.
  destruct ws as [|w ws]; [reflexivity|]. cbn.
  intros H. now apply andb_true_iff in H as [H _].
Qed.

End FilterFacts.

Import PyStrFacts SplitFacts TidyFacts ReFacts FilterFacts.

(* ------------------------------------------------------------------ *)
(** ** Digits, whitespace and punctuation only *)

(** The claim as the specification words it does not hold: [1-2] has no
    alphabetic content, it consists of digits and of a character of the
    specification's own trimming set, and it is accepted. *)
Lemma digits_and_dash_accepted :
  cleaned (lit "1-2") = lit "1-2"
  /\ forallb (fun c => isdigit c || char_in (lit " .,!?;-") c) (lit "1-2") = true
  /\ _clean_transcription (lit "1-2") = Some (lit "1-2").
Proof. repeat split. Qed.

(** C6 (amended). Every input whose cleaned text consists solely of
    decimal digits, whitespace and the six characters [. , ! ? ; :] is
    rejected.  (Text without letters that holds another character, such as
    [1-2], is accepted.) *)
Theorem digits_punct_rejected :
  forall raw,
    forallb digits_punct_class (cleaned raw) = true ->
    _clean_transcription raw = None.
Proof.
  intros raw H. rewrite clean_judge. unfold judge.
  set (text := cleaned raw) in *.
  set (text_lower := strip isspace (lower text)).
  destruct (is_empty text); [reflexivity|].
  destruct (List.length text_lower <? 2)%nat; [reflexivity|].
  destruct (str_in text_lower false_positives); [reflexivity|].
  destruct (_ && str_in _ false_positives); [reflexivity|].
  assert (Hw : str_in (word0 (split text_lower)) meaningful_single_words = false).
  { destruct (str_in _ meaningful_single_words) eqn:E; [|reflexivity].
    apply meaningful_has_letter in E. rewrite hd_forallb in E; [discriminate|].
    apply split_forallb, strip_forallb.
    rewrite lower_forallb; [exact H|apply digits_punct_class_lower]. }
  rewrite Hw, andb_false_r, re_match_digits_punct, H. reflexivity.
Qed.

Lemma digits_punct_rejected_witness :
  forallb digits_punct_class (cleaned (lit "12, 13.")) = true
  /\ _clean_transcription (lit "12, 13.") = None.
Proof.
  split; [reflexivity|].
  apply (digits_punct_rejected (lit "12, 13.")). reflexivity.
Defined.

(* ------------------------------------------------------------------ *)
(** ** Single words *)










(* ------------------------------------------------------------------ *)
(** ** Noise *)













(* ------------------------------------------------------------------ *)
(** ** Filtering twice *)

(** The claim as the specification words it does not hold: deleting
    [12:34:56] from [a112:34:562:34:56] joins what stood around it into
    [a12:34:56], which the filter accepts; filtered again, the new
    timestamp is deleted and the remaining [a] is rejected. *)
Lemma filter_not_idempotent :
  _clean_transcription (lit "a112:34:562:34:56") = Some (lit "a12:34:56")
  /\ _clean_transcription (lit "a12:34:56") = None.
Proof. split; reflexivity. Qed.

Lemma remove_timestamps_length s :
  (List.length (remove_timestamps s) <= List.length s)%nat.
Proof.
  unfold remove_timestamps.
  pose proof (re_sub_length srt s).
  pose proof (re_sub_length hms_ms (re_sub srt s)).
  pose proof (re_sub_length hms (re_sub hms_ms (re_sub srt s))). lia.
Qed.

Lemma remove_timestamps_same_length s :
  List.length (remove_timestamps s) = List.length s ->
  remove_timestamps s = s.
Proof.
  unfold remove_timestamps. intros H.
  pose proof (re_sub_length srt s) as La.
  pose proof (re_sub_length hms_ms (re_sub srt s)) as Lb.
  pose proof (re_sub_length hms (re_sub hms_ms (re_sub srt s))) as Lc.
  assert (Ea : re_sub srt s = s) by (apply re_sub_same_length; lia).
  rewrite Ea in *.
  assert (Eb : re_sub hms_ms s = s) by (apply re_sub_same_length; lia).
  rewrite Eb in *.
  apply re_sub_same_length. lia.
Qed.

Lemma cleaned_length s :
  (List.length (cleaned s) <= List.length (remove_timestamps s))%nat.
Proof.
  unfold cleaned.
  pose proof (strip_length (char_in (lit " .,!?;-"))
                (join sp (split (remove_timestamps s)))).
  pose proof (join_split_length (remove_timestamps s)).
  unfold sp in *. lia.
Qed.

(** C3 (amended). Filtering an accepted output again returns it
    unchanged exactly when the three timestamp deletions find nothing to
    delete in it: collapsing, trimming and the checks do not change an
    accepted output, the deletions may. *)
Theorem filter_idempotent_without_timestamps :
  forall raw out,
    _clean_transcription raw = Some out ->
    (_clean_transcription out = Some out <-> remove_timestamps out = out).
Proof.
  intros raw out H. pose proof (clean_some _ _ H) as Hout.
  rewrite clean_judge, <- Hout in H. split.
  - intros H2. apply clean_some in H2.
    apply remove_timestamps_same_length.
    pose proof (cleaned_length out). pose proof (remove_timestamps_length out).
    rewrite <- H2 in *. lia.
  - intros H2. rewrite clean_judge.
    assert (Hfix : cleaned out = out).
    { unfold cleaned at 1. rewrite H2.
      destruct (tidy_fixed (char_in (lit " .,!?;-"))
                  (remove_timestamps raw) eq_refl) as [Hj Hs].
      fold sp. unfold cleaned in Hout. fold sp in Hout.
      rewrite <- Hout in Hj, Hs. now rewrite Hj. }
    now rewrite Hfix.
Qed.

Lemma filter_idempotent_without_timestamps_witness :
  _clean_transcription (lit "[00:00:00.000 --> 00:00:02.000]  Hello,  world.")
  = Some (lit "Hello, world")
  /\ (_clean_transcription (lit "Hello, world") = Some (lit "Hello, world")
      <-> remove_timestamps (lit "Hello, world") = lit "Hello, world").
Proof.
  split; [reflexivity|].
  apply (filter_idempotent_without_timestamps
           (lit "[00:00:00.000 --> 00:00:02.000]  Hello,  world.")).
  reflexivity.
Defined.

(* ------------------------------------------------------------------ *)
(** ** Timestamp markup *)


(** What follows a match of [p*] and the rest does not matter, when the
    rest cannot start with a character of [p]. *)
Lemma star_prefix p rest :
  (forall c m, p c = true -> rest (c :: m) = None) ->
  (forall m n s, rest m = Some n -> rest (m ++ s) = Some n) ->
  forall m n s, star p rest m = Some n -> star p rest (m ++ s) = Some n.
Proof.
  intros Hdis Hrest m. induction m as [|c m IH]; intros n s H.
  - cbn in H. apply (Hrest [] n s) in H.
    cbn [app] in H |- *. destruct s as [|x s]; [exact H|].
    cbn [star]. destruct (p x) eqn:Ex; [|exact H].
    now rewrite (Hdis _ _ Ex) in H.
  - cbn [star app] in H |- *. destruct (p c) eqn:Ec.
    + destruct (star p rest m) as [k|] eqn:Ek.
      * now rewrite (IH _ s eq_refl).
      * now rewrite (Hdis _ _ Ec) in H.
    + now apply (Hrest (c :: m)).
Qed.

Lemma stable_prefix pat :
  stable pat ->
  forall m n s, match_here pat m = Some n -> match_here pat (m ++ s) = Some n.
Proof.
  induction 1 as [|p pat Hst IH|p q pat Hdis Hst IH]; intros m n s H.
  - exact H.
  - destruct m as [|c m]; [discriminate|]. cbn [match_here app] in H |- *.
    destruct (p c); [|discriminate].
    destruct (match_here pat m) as [k|] eqn:Ek; [|discriminate].
    now rewrite (IH _ _ s Ek).
  - change (star p (match_here (One q :: pat)) (m ++ s) = Some n).
    change (star p (match_here (One q :: pat)) m = Some n) in H.
    revert H. apply star_prefix; [|exact IH].
    intros c x Hc. cbn [match_here]. now rewrite (Hdis _ Hc).
Qed.

Lemma srt_stable : stable srt.
Proof.
  unfold srt, hms_ms, hms, d. cbn [app].
  repeat (apply stable_one || apply stable_nil || apply stable_many);
    intros c Hc.
  - destruct (chr "-" c) eqn:E; [|reflexivity].
    apply char_eqb_eq in E. subst c. discriminate.
  - destruct (isdigit c) eqn:E; [|reflexivity].
    apply isdigit_not_space in E. congruence.
Qed.






(** How the classes of the patterns exclude one another. *)
Lemma chr_true s c x : lit s = [x] -> chr s c = true -> c = x.
Proof.
  unfold chr. intros ->. intros H. apply char_eqb_eq in H. congruence.
Qed.

Lemma digit_not_bracket c : isdigit c = true -> chr "[" c = false.
Proof.
  intros H. destruct (chr "[" c) eqn:E; [|reflexivity].
  apply (chr_true "[" c 91 eq_refl) in E. subst c. discriminate.
Qed.



Lemma space_not_bracket c : isspace c = true -> chr "[" c = false.
Proof.
  intros H. destruct (chr "[" c) eqn:E; [|reflexivity].
  apply (chr_true "[" c 91 eq_refl) in E. subst c. discriminate.
Qed.


Lemma space_not_digit c : isspace c = true -> isdigit c = false.
Proof.
  intros H. destruct (isdigit c) eqn:E; [|reflexivity].
  apply isdigit_not_space in E. congruence.
Qed.

Lemma space_not_colon c : isspace c = true -> chr ":" c = false.
Proof.
  intros H. destruct (chr ":" c) eqn:E; [|reflexivity].
  apply (chr_true ":" c 58 eq_refl) in E. subst c. discriminate.
Qed.

Lemma space_not_dot c : isspace c = true -> chr "." c = false.
Proof.
  intros H. destruct (chr "." c) eqn:E; [|reflexivity].
  apply (chr_true "." c 46 eq_refl) in E. subst c. discriminate.
Qed.

Lemma srt_needs_bracket c s : chr "[" c = false -> match_here srt (c :: s) = None.
Proof. intros H. unfold srt. cbn [app match_here]. now rewrite H. Qed.

Lemma marker_head m :
  is_marker m -> exists c m', m = c :: m' /\ isdigit c = false.
Proof.
  unfold is_marker. destruct m as [|c m]; [discriminate|]. intros H.
  exists c, m. split; [reflexivity|].
  destruct (isdigit c) eqn:E; [|reflexivity].
  now rewrite (srt_needs_bracket c m (digit_not_bracket c E)) in H.
Qed.



(** A pass keeps a stretch of text in which its pattern cannot start. *)
Lemma re_sub_keeps pat m s :
  (forall c r, In c m -> match_here pat (c :: r) = None) ->
  re_sub pat (m ++ s) = m ++ re_sub pat s.
Proof.
  unfold re_sub. induction m as [|c m IH]; intros H; [reflexivity|].
  cbn [app sub_from]. rewrite (H c (m ++ s) (or_introl eq_refl)).
  f_equal. apply IH. intros x r Hx. apply H. now right.
Qed.

(** A pass deletes a stretch of text that its pattern matches in full. *)
Lemma re_sub_deletes pat m s :
  stable pat -> m <> [] ->
  match_here pat m = Some (List.length m) ->
  re_sub pat (m ++ s) = re_sub pat s.
Proof.
  intros Hst Hne Hm. destruct m as [|c m]; [congruence|].
  pose proof (stable_prefix pat Hst (c :: m) _ s Hm) as Hmatch.
  unfold re_sub. cbn [app sub_from List.length] in Hmatch |- *.
  rewrite Hmatch. apply sub_from_skip.
Qed.





Lemma one_fail p pat c s :
  p c = false -> match_here (One p :: pat) (c :: s) = None.
Proof. intros H. cbn [match_here]. now rewrite H. Qed.









(* ================================================================== *)
(** * Further properties of the transcript filter *)
(* ================================================================== *)















(** X3. The filter invents nothing.  An accepted output is not longer
    than the input, and each of its characters is a character of the
    input or the space that stands for a run of whitespace. *)
Theorem output_from_input :
  forall raw out,
    _clean_transcription raw = Some out ->
    (List.length out <= List.length raw)%nat
    /\ forall c, In c out -> In c raw \/ c = 32%N.
Proof.
  intros raw out H. apply clean_some in H. subst out. split.
  - pose proof (cleaned_length raw). pose proof (remove_timestamps_length raw).
    lia.
  - set (q := fun c => existsb (N.eqb c) raw || (c =? 32)%N).
    assert (Hraw : forallb q raw = true).
    { apply forallb_forall. intros x Hx. unfold q.
      apply orb_true_iff. left. apply existsb_exists.
      exists x. split; [exact Hx|apply N.eqb_refl]. }
    assert (Hout : forallb q (cleaned raw) = true).
    { unfold cleaned, remove_timestamps, re_sub.
      apply strip_forallb, join_forallb; [apply orb_true_r|].
      apply split_forallb. now do 3 apply sub_from_forallb. }
    intros c Hc. rewrite forallb_forall in Hout. specialize (Hout c Hc).
    unfold q in Hout. apply orb_true_iff in Hout as [Hin|Heq].
    + left. apply existsb_exists in Hin as (x & Hx & Hcx).
      apply N.eqb_eq in Hcx. now subst x.
    + right. now apply N.eqb_eq.
Qed.

Lemma output_from_input_witness :
  (List.length (lit "a b") <= List.length (lit "a
b."))%nat
  /\ forall c, In c (lit "a b") -> In c (lit "a
b.") \/ c = 32%N.
Proof.
  apply (output_from_input (lit "a
b.")). reflexivity.
Defined.

(** X4. A marker at the head of the engine's output is ignored: the
    filter treats [[hh:mm:ss.mmm --> hh:mm:ss.mmm]] followed by a text as
    it treats the text alone. *)
Theorem leading_marker_ignored :
  forall m s,
    is_marker m ->
    _clean_transcription (m ++ s) = _clean_transcription s.
Proof.
  intros m s Hm. rewrite !clean_judge. f_equal.
  unfold cleaned, remove_timestamps.
  rewrite (re_sub_deletes srt m s srt_stable); [reflexivity| |exact Hm].
  destruct (marker_head _ Hm) as (c & m' & -> & _). discriminate.
Qed.

Lemma leading_marker_ignored_witness :
  _clean_transcription
    (lit "[00:00:00.000 --> 00:00:02.000]" ++ lit " 3 apples at 12:30:00")
  = _clean_transcription (lit " 3 apples at 12:30:00").
Proof.
  apply (leading_marker_ignored (lit "[00:00:00.000 --> 00:00:02.000]")).
  reflexivity.
Defined.

(* ------------------------------------------------------------------ *)
(** ** Letter case *)














Section CaselessStrip.

Variable p : N -> bool.
Hypothesis p_lower : forall c, p (lower_char c) = p c.




End CaselessStrip.




(* ================================================================== *)
(** * Further properties of the recording cycle *)
(* ================================================================== *)

Lemma send_notification_events w title message timeout icon st :
  _send_notification w title message timeout icon st
  = append_log (notify_events w title message timeout icon) st.
Proof.
  unfold notify_events, _send_notification.
  destruct (is_empty (strip isspace title) || is_empty (strip isspace message));
    [now rewrite append_log_nil|].
  destruct (NOTIFY_SEND_AVAILABLE w), (notify_send_raises w title),
    (PLYER_AVAILABLE w); cbn [log emit app];
    rewrite !emit_append, ?append_log_append; reflexivity.
Qed.

Lemma notify_events_title w title message timeout icon :
  Forall (fun e => notification_title e = Some title)
    (notify_events w title message timeout icon).
Proof.
  unfold notify_events, _send_notification.
  destruct (is_empty (strip isspace title) || is_empty (strip isspace message));
    [constructor|].
  destruct (NOTIFY_SEND_AVAILABLE w), (notify_send_raises w title),
    (PLYER_AVAILABLE w); repeat constructor.
Qed.

Lemma notify_events_nonempty w title message timeout icon :
  is_empty (strip isspace title) || is_empty (strip isspace message) = false ->
  notify_events w title message timeout icon <> [].
Proof.
  unfold notify_events, _send_notification. intros ->.
  destruct (NOTIFY_SEND_AVAILABLE w), (notify_send_raises w title),
    (PLYER_AVAILABLE w); discriminate.
Qed.

Lemma new_events_append st es : new_events st (append_log es st) = es.
Proof.
  unfold new_events. cbn. rewrite skipn_app, skipn_all, Nat.sub_diag.
  reflexivity.
Qed.

Lemma transcribe_audio_run cfg w p st :
  _transcribe_audio cfg w p st
  = (transcribe_result cfg w, append_log (transcribe_events cfg w p) st).
Proof.
  unfold _transcribe_audio, transcribe_result, transcribe_events,
    model_usable, model_name, engine_transcript.
  destruct (model_path cfg) as [[|c m]|];
    try (now rewrite append_log_nil).
  destruct (model_path_exists w); cbn [negb];
    [|now rewrite append_log_nil].
  destruct (whisper_run w) as [rc out err| |].
  - now destruct (rc =? 0)%Z.
  - now rewrite send_notification_events, emit_append, append_log_append.
  - reflexivity.
Qed.

Lemma deliver_run w t dur st :
  deliver w t dur st = append_log (deliver_events w t dur) st.
Proof.
  unfold deliver, deliver_events, _save_transcription.
  destruct (clipboard_raises w); [now rewrite append_log_nil|].
  destruct (is_empty t); cbn [orb];
    [|destruct (save_raises w)];
    rewrite send_notification_events, !emit_append, ?append_log_append;
    reflexivity.
Qed.

Lemma try_block_run cfg w p st :
  try_block cfg w p st
  = append_log (try_events cfg w p (audio_frames st)) st.
Proof.
  unfold try_block, try_events.
  destruct (wave_write_raises w); [now rewrite append_log_nil|].
  cbn [audio_frames emit].
  destruct (List.length (audio_frames st) =? 0)%nat; [reflexivity|].
  cbn [orb]. destruct (Qltb _ _); [reflexivity|].
  rewrite transcribe_audio_run.
  destruct (transcribe_result cfg w) as [[|c t]|].
  - now rewrite app_nil_r, emit_append, append_log_append.
  - now rewrite deliver_run, emit_append, !append_log_append.
  - now rewrite app_nil_r, emit_append, append_log_append.
Qed.

(** The whole cycle as one update of the state. *)
Lemma stop_run cfg w st :
  is_recording st = true ->
  stop_recording_and_transcribe cfg w st =
    {| is_recording := false;
       audio_frames := audio_frames st;
       open_streams := open_streams st;
       files := match temp_file w with
                | None => files st
                | Some p =>
                    if unlink_raises w then p :: files st
                    else filter (fun f => negb (str_eqb f p)) (p :: files st)
                end;
       log := log st ++ cycle_events cfg w (audio_frames st) |}.
Proof.
  intros Hrec. unfold stop_recording_and_transcribe, cycle_events.
  rewrite Hrec. cbn [negb]. rewrite send_notification_events.
  destruct (temp_file w) as [p|].
  - rewrite try_block_run.
    unfold unlink, emit, append_log, set_files, set_recording.
    destruct (unlink_raises w);
      cbn [is_recording audio_frames open_streams files log];
      f_equal; rewrite <- ?app_assoc; reflexivity.
  - cbn. now rewrite app_nil_r.
Qed.

Lemma stop_new_events cfg w st :
  is_recording st = true ->
  new_events st (stop_recording_and_transcribe cfg w st)
  = cycle_events cfg w (audio_frames st).
Proof.
  intros Hrec. rewrite (stop_run cfg w st Hrec). unfold new_events. cbn.
  now rewrite skipn_app, skipn_all, Nat.sub_diag.
Qed.

(** The duration test in chunks: 0.3 s is reached with the fifth chunk. *)
Lemma too_short_iff (frames : list chunk) :
  (List.length frames =? 0)%nat || Qltb (audio_duration frames) min_duration
  = (List.length frames <? 5)%nat.
Proof.
  unfold Qltb, audio_duration, min_duration, Qle_bool, CHUNK, RATE.
  cbn [Qnum Qden Qdiv Qmult Qinv inject_Z].
  destruct (List.length frames) as [|n] eqn:E; [reflexivity|].
  cbn [Nat.eqb orb].
  apply eq_iff_eq_true. rewrite negb_true_iff, Nat.ltb_lt.
  rewrite <- not_true_iff_false, Z.leb_le.
  cbn. lia.
Qed.

(** Where an event of a cycle comes from. *)
Lemma in_notify_events w title message timeout icon e :
  In e (notify_events w title message timeout icon) ->
  notification_title e = Some title.
Proof.
  intros H.
  exact (proj1 (Forall_forall _ _)
           (notify_events_title w title message timeout icon) e H).
Qed.

Lemma in_transcribe_events cfg w p e :
  In e (transcribe_events cfg w p) ->
  model_usable cfg w = true
  /\ (e = RunWhisper (whisper_cmd cfg (model_name cfg) p)
      \/ (whisper_run w = TimeoutExpired
          /\ notification_title e = Some timeout_title)).
Proof.
  unfold transcribe_events. destruct (model_usable cfg w); [|contradiction].
  intros [<-|H]; [auto|]. split; [reflexivity|]. right.
  destruct (whisper_run w); try contradiction.
  split; [reflexivity|]. now apply in_notify_events in H.
Qed.

Lemma in_deliver_events w t dur e :
  In e (deliver_events w t dur) ->
  clipboard_raises w = false
  /\ (e = ClipboardCopy t
      \/ (e = SaveJson (record_path w) t dur /\ save_raises w = false)
      \/ notification_title e = Some (lit "Completed")).
Proof.
  unfold deliver_events. destruct (clipboard_raises w); [contradiction|].
  intros [<-|H]; [auto|]. split; [reflexivity|]. right.
  apply in_app_iff in H as [H|H].
  - left. destruct (is_empty t); [contradiction|].
    destruct (save_raises w); [contradiction|].
    destruct H as [<-|[]]. auto.
  - right. now apply in_notify_events in H.
Qed.

Lemma transcribe_result_some cfg w t :
  transcribe_result cfg w = Some t ->
  model_usable cfg w = true /\ engine_transcript w = Some t.
Proof.
  unfold transcribe_result. destruct (model_usable cfg w); [auto|discriminate].
Qed.

Lemma in_try_events cfg w p frames e :
  In e (try_events cfg w p frames) ->
  wave_write_raises w = false
  /\ (e = WaveWrite p frames
      \/ ((5 <= List.length frames)%nat
          /\ (In e (transcribe_events cfg w p)
              \/ exists t,
                   transcribe_result cfg w = Some t /\ t <> []
                   /\ In e (deliver_events w t (audio_duration frames))))).
Proof.
  unfold try_events. destruct (wave_write_raises w); [contradiction|].
  intros [<-|H]; [auto|]. split; [reflexivity|]. right.
  rewrite too_short_iff in H.
  destruct (Nat.ltb_spec (List.length frames) 5); [contradiction|].
  split; [assumption|]. apply in_app_iff in H as [H|H]; [auto|]. right.
  destruct (transcribe_result cfg w) as [[|c t]|] eqn:E; try contradiction.
  exists (c :: t). repeat split; [discriminate|exact H].
Qed.

(** The events of the delivery are events of the cycle. *)
Lemma deliver_in_cycle cfg w frames p t e :
  temp_file w = Some p -> wave_write_raises w = false ->
  (5 <= List.length frames)%nat ->
  transcribe_result cfg w = Some t -> t <> [] ->
  In e (deliver_events w t (audio_duration frames)) ->
  In e (cycle_events cfg w frames).
Proof.
  intros Hp Hw Hlen Ht Hne H. unfold cycle_events. rewrite Hp.
  apply in_app_iff. right. right. apply in_app_iff. left.
  unfold try_events. rewrite Hw, too_short_iff. right.
  destruct (Nat.ltb_spec (List.length frames) 5); [lia|].
  apply in_app_iff. right. rewrite Ht.
  destruct t as [|c t]; [congruence|exact H].
Qed.

Lemma in_cycle_events cfg w frames e :
  In e (cycle_events cfg w frames) ->
  notification_title e = Some (lit "Processing")
  \/ exists p,
       temp_file w = Some p
       /\ (e = TempFile p \/ e = Unlink p
           \/ In e (try_events cfg w p frames)).
Proof.
  unfold cycle_events. intros H. apply in_app_iff in H as [H|H].
  - left. now apply in_notify_events in H.
  - right. destruct (temp_file w) as [p|]; [|contradiction].
    exists p. split; [reflexivity|].
    destruct H as [<-|H]; [auto|].
    apply in_app_iff in H as [H|[<-|[]]]; auto.
Qed.

(** X6. When the engine is run.  A release during a recording runs the
    engine if and only if the temporary file could be created, the WAV
    write succeeded, at least five chunks (0.32 s) were captured, and the
    model file is named and exists. *)
Theorem engine_runs_iff :
  forall cfg w st,
    is_recording st = true ->
    (exists cmd,
        In (RunWhisper cmd)
          (new_events st (stop_recording_and_transcribe cfg w st)))
    <-> (temp_file w <> None
         /\ wave_write_raises w = false
         /\ (5 <= List.length (audio_frames st))%nat
         /\ model_usable cfg w = true).
Proof.
  intros cfg w st Hrec. rewrite (stop_new_events cfg w st Hrec). split.
  - intros (cmd & H).
    apply in_cycle_events in H as [H|(p & Hp & [H|[H|H]])];
      try discriminate.
    apply in_try_events in H as (Hw & [H|(Hlen & [H|(t & _ & _ & H)])]);
      try discriminate.
    + apply in_transcribe_events in H as (Hm & _).
      repeat split; auto. congruence.
    + apply in_deliver_events in H as (_ & [H|[[H _]|H]]); discriminate.
  - intros (Hp & Hw & Hlen & Hm).
    destruct (temp_file w) as [p|] eqn:Ep; [|congruence].
    exists (whisper_cmd cfg (model_name cfg) p).
    unfold cycle_events. rewrite Ep. apply in_app_iff. right. right.
    apply in_app_iff. left. unfold try_events. rewrite Hw. right.
    rewrite too_short_iff.
    destruct (Nat.ltb_spec (List.length (audio_frames st)) 5); [lia|].
    apply in_app_iff. left. unfold transcribe_events. rewrite Hm. now left.
Qed.

Lemma engine_runs_iff_witness :
  (exists cmd,
      In (RunWhisper cmd)
        (new_events long0 (stop_recording_and_transcribe cfg0 world_you long0)))
  <-> (temp_file world_you <> None
       /\ wave_write_raises world_you = false
       /\ (5 <= List.length (audio_frames long0))%nat
       /\ model_usable cfg0 world_you = true).
Proof.
  apply (engine_runs_iff cfg0 world_you long0). reflexivity.
Defined.

(** X7. Only an accepted transcript is delivered.  Whatever a cycle
    copies to the clipboard is the text that the filter returned for the
    standard output of an engine run with exit code zero, after at least
    five chunks; and whatever it saves is that same text, copied to the
    clipboard in the same cycle, saved under the record's path with the
    duration of the captured audio. *)
Theorem only_accepted_text_is_delivered :
  forall cfg w st,
    is_recording st = true ->
    let new := new_events st (stop_recording_and_transcribe cfg w st) in
    (forall t,
        In (ClipboardCopy t) new ->
        engine_transcript w = Some t
        /\ (5 <= List.length (audio_frames st))%nat)
    /\ (forall path t dur,
          In (SaveJson path t dur) new ->
          In (ClipboardCopy t) new
          /\ path = record_path w
          /\ dur = audio_duration (audio_frames st)).
Proof.
  intros cfg w st Hrec new. subst new.
  rewrite (stop_new_events cfg w st Hrec). split.
  - intros t H.
    apply in_cycle_events in H as [H|(p & Hp & [H|[H|H]])];
      try discriminate.
    apply in_try_events in H as (Hw & [H|(Hlen & [H|(t' & Ht & _ & H)])]);
      try discriminate.
    + apply in_transcribe_events in H as (_ & [H|[_ H]]); discriminate.
    + apply in_deliver_events in H as (_ & [H|[[H _]|H]]);
        try discriminate.
      injection H as <-. now apply transcribe_result_some in Ht as [_ Ht].
  - intros path t dur H.
    apply in_cycle_events in H as [H|(p & Hp & [H|[H|H]])];
      try discriminate.
    apply in_try_events in H as (Hw & [H|(Hlen & [H|(t' & Ht & Hne & H)])]);
      try discriminate.
    + apply in_transcribe_events in H as (_ & [H|[_ H]]); discriminate.
    + apply in_deliver_events in H as (Hc & [H|[[H _]|H]]);
        try discriminate.
      injection H as <- <- <-. repeat split.
      apply (deliver_in_cycle cfg w _ p t); auto.
      unfold deliver_events. rewrite Hc. now left.
Qed.

Lemma only_accepted_text_is_delivered_witness :
  let new := new_events long0 (stop_recording_and_transcribe cfg0 world_you long0) in
  (forall t,
      In (ClipboardCopy t) new ->
      engine_transcript world_you = Some t
      /\ (5 <= List.length (audio_frames long0))%nat)
  /\ (forall path t dur,
        In (SaveJson path t dur) new ->
        In (ClipboardCopy t) new
        /\ path = record_path world_you
        /\ dur = audio_duration (audio_frames long0)).
Proof.
  apply (only_accepted_text_is_delivered cfg0 world_you long0). reflexivity.
Defined.

Lemma titles_distinct :
  lit "Processing" <> lit "Completed"
  /\ timeout_title <> lit "Completed"
  /\ timeout_title <> lit "Processing".
Proof. repeat split; discriminate. Qed.

Lemma completed_not_blank :
  is_empty (strip isspace (lit "Completed"))
  || is_empty (strip isspace (lit "Transcribed")) = false.
Proof. reflexivity. Qed.

(** X8. The completion notice follows the clipboard, not the record.
    A cycle sends a notification titled [Completed] if and only if it has
    copied a transcript to the clipboard, whether or not the record could
    be saved; and when the clipboard call raises, the cycle neither saves
    a record nor sends that notification. *)
Theorem completion_notice_iff_copied :
  forall cfg w st,
    is_recording st = true ->
    let new := new_events st (stop_recording_and_transcribe cfg w st) in
    ((exists e, In e new /\ notification_title e = Some (lit "Completed"))
     <-> exists t, In (ClipboardCopy t) new)
    /\ (clipboard_raises w = true ->
        forall e, In e new ->
          (forall t, e <> ClipboardCopy t)
          /\ (forall path t dur, e <> SaveJson path t dur)
          /\ notification_title e <> Some (lit "Completed")).
Proof.
  intros cfg w st Hrec new. subst new.
  rewrite (stop_new_events cfg w st Hrec).
  destruct titles_distinct as (Tpc & Ttc & _).
  assert (Hdel : forall e,
    In e (cycle_events cfg w (audio_frames st)) ->
    (exists t, e = ClipboardCopy t) \/ (exists path t dur, e = SaveJson path t dur)
    \/ notification_title e = Some (lit "Completed") ->
    clipboard_raises w = false
    /\ exists t, In (ClipboardCopy t) (cycle_events cfg w (audio_frames st))
       /\ exists e', In e' (cycle_events cfg w (audio_frames st))
                    /\ notification_title e' = Some (lit "Completed")).
  { intros e H Hkind.
    apply in_cycle_events in H as [H|(p & Hp & [H|[H|H]])].
    - destruct Hkind as [(t & ->)|[(a & b & c & ->)|Hk]]; try discriminate.
      congruence.
    - subst e. destruct Hkind as [(t & Hk)|[(a & b & c & Hk)|Hk]];
        discriminate.
    - subst e. destruct Hkind as [(t & Hk)|[(a & b & c & Hk)|Hk]];
        discriminate.
    - apply in_try_events in H as (Hw & [H|(Hlen & [H|(t & Ht & Hne & H)])]).
      + subst e. destruct Hkind as [(t & Hk)|[(a & b & c & Hk)|Hk]];
          discriminate.
      + apply in_transcribe_events in H as (_ & [H|[_ H]]).
        * subst e. destruct Hkind as [(t & Hk)|[(a & b & c & Hk)|Hk]];
            discriminate.
        * destruct Hkind as [(t & ->)|[(a & b & c & ->)|Hk]];
            try discriminate. congruence.
      + apply in_deliver_events in H as (Hc & _). split; [exact Hc|].
        exists t. split.
        * apply (deliver_in_cycle cfg w _ p t); auto.
          unfold deliver_events. rewrite Hc. now left.
        * pose proof (notify_events_nonempty w (lit "Completed")
                        (lit "Transcribed") 1 None completed_not_blank) as Hn.
          destruct (notify_events w (lit "Completed") (lit "Transcribed")
                      1 None) as [|e' n'] eqn:En; [congruence|].
          exists e'. split.
          -- apply (deliver_in_cycle cfg w _ p t); auto.
             unfold deliver_events. rewrite Hc, En. right.
             apply in_app_iff. right. now left.
          -- apply (in_notify_events w (lit "Completed")
                      (lit "Transcribed") 1 None). rewrite En. now left. }
  split; [split|].
  - intros (e & He & Ht). destruct (Hdel e He) as (_ & t & Hc & _); eauto.
  - intros (t & Ht).
    destruct (Hdel _ Ht) as (_ & _ & _ & e' & He' & Hn'); eauto.
  - intros Hc e He. repeat split.
    + intros t ->. destruct (Hdel _ He) as (Hc' & _); eauto. congruence.
    + intros a b c ->. destruct (Hdel _ He) as (Hc' & _).
      * right. left. eauto.
      * congruence.
    + intros Hn. destruct (Hdel _ He) as (Hc' & _); auto. congruence.
Qed.

Lemma completion_notice_iff_copied_witness :
  let new := new_events long0 (stop_recording_and_transcribe cfg0 world_you long0) in
  ((exists e, In e new /\ notification_title e = Some (lit "Completed"))
   <-> exists t, In (ClipboardCopy t) new)
  /\ (clipboard_raises world_you = true ->
      forall e, In e new ->
        (forall t, e <> ClipboardCopy t)
        /\ (forall path t dur, e <> SaveJson path t dur)
        /\ notification_title e <> Some (lit "Completed")).
Proof.
  apply (completion_notice_iff_copied cfg0 world_you long0). reflexivity.
Defined.

Lemma judge_nonempty text out : judge text = Some out -> out <> [].
Proof.
  intros H. pose proof (judge_some _ _ H) as ->. unfold judge in H.
  now destruct text.
Qed.

Lemma engine_transcript_some w t :
  engine_transcript w = Some t ->
  t <> []
  /\ exists stdout stderr, whisper_run w = Completed 0 stdout stderr.
Proof.
  unfold engine_transcript.
  destruct (whisper_run w) as [rc out err| |]; try discriminate.
  destruct (rc =? 0)%Z eqn:E; [|discriminate].
  apply Z.eqb_eq in E. subst rc. rewrite clean_judge. intros H. split.
  - exact (judge_nonempty _ _ H).
  - now exists out, err.
Qed.

(** X9. The order of a successful cycle.  When the temporary file is
    created, the WAV write succeeds, at least five chunks were captured,
    the model is usable, the engine's output is accepted by the filter,
    and the clipboard and the record can be written, the cycle does, in
    this order and nothing else: the [Processing] notification, the
    temporary file, the WAV write of the captured frames, one engine run
    on that file, the copy to the clipboard, the record, the [Completed]
    notification, and the unlink of the temporary file. *)
Theorem successful_cycle_order :
  forall cfg w st p t,
    is_recording st = true ->
    temp_file w = Some p ->
    wave_write_raises w = false ->
    (5 <= List.length (audio_frames st))%nat ->
    model_usable cfg w = true ->
    engine_transcript w = Some t ->
    clipboard_raises w = false ->
    save_raises w = false ->
    exists processing completed,
      new_events st (stop_recording_and_transcribe cfg w st)
      = processing
        ++ [TempFile p;
            WaveWrite p (audio_frames st);
            RunWhisper (whisper_cmd cfg (model_name cfg) p);
            ClipboardCopy t;
            SaveJson (record_path w) t (audio_duration (audio_frames st))]
        ++ completed ++ [Unlink p]
      /\ processing <> [] /\ completed <> []
      /\ Forall (fun e => notification_title e = Some (lit "Processing"))
           processing
      /\ Forall (fun e => notification_title e = Some (lit "Completed"))
           completed.
Proof.
  intros cfg w st p t Hrec Hp Hw Hlen Hm Ht Hc Hs.
  exists (notify_events w (lit "Processing") (lit "Transcribing...") 1 None),
    (notify_events w (lit "Completed") (lit "Transcribed") 1 None).
  split; [|repeat split;
           try apply notify_events_title;
           apply notify_events_nonempty; reflexivity].
  rewrite (stop_new_events cfg w st Hrec).
  destruct (engine_transcript_some w t Ht) as (Hne & out & err & Hrun).
  unfold cycle_events, try_events, transcribe_events, transcribe_result,
    deliver_events.
  rewrite Hp, Hw, too_short_iff, Hm, Ht, Hrun, Hc, Hs.
  destruct (Nat.ltb_spec (List.length (audio_frames st)) 5); [lia|].
  destruct t as [|c t]; [congruence|]. cbn [is_empty orb app].
  reflexivity.
Qed.

Lemma successful_cycle_order_witness :
  exists processing completed,
    new_events long0 (stop_recording_and_transcribe cfg0 world_you long0)
    = processing
      ++ [TempFile (lit "/tmp/tmpa1b2c3.wav");
          WaveWrite (lit "/tmp/tmpa1b2c3.wav") (audio_frames long0);
          RunWhisper (whisper_cmd cfg0 (model_name cfg0)
                        (lit "/tmp/tmpa1b2c3.wav"));
          ClipboardCopy (lit "you");
          SaveJson (record_path world_you) (lit "you")
            (audio_duration (audio_frames long0))]
      ++ completed ++ [Unlink (lit "/tmp/tmpa1b2c3.wav")]
    /\ processing <> [] /\ completed <> []
    /\ Forall (fun e => notification_title e = Some (lit "Processing"))
         processing
    /\ Forall (fun e => notification_title e = Some (lit "Completed"))
         completed.
Proof.
  apply (successful_cycle_order cfg0 world_you long0
           (lit "/tmp/tmpa1b2c3.wav") (lit "you"));
    reflexivity.
Defined.

(** X10. A cycle without a transcript ends silently.  When the model is
    not usable, or the engine's run gives no accepted transcript and did
    not time out (non-zero exit code, another error, or the filter's
    rejection), the cycle delivers nothing and its only notification is
    the [Processing] one. *)
Theorem cycle_without_transcript_is_silent :
  forall cfg w st,
    is_recording st = true ->
    model_usable cfg w = false
    \/ (engine_transcript w = None /\ whisper_run w <> TimeoutExpired) ->
    forall e,
      In e (new_events st (stop_recording_and_transcribe cfg w st)) ->
      (forall t, e <> ClipboardCopy t)
      /\ (forall path t dur, e <> SaveJson path t dur)
      /\ (forall title,
             notification_title e = Some title -> title = lit "Processing").
Proof.
  intros cfg w st Hrec Hno e He.
  rewrite (stop_new_events cfg w st Hrec) in He.
  assert (Hres : transcribe_result cfg w = None).
  { unfold transcribe_result. destruct Hno as [->|[-> _]]; [reflexivity|].
    now destruct (model_usable cfg w). }
  apply in_cycle_events in He as [He|(p & Hp & [He|[He|He]])].
  - repeat split; try (intros; intros ->; discriminate). congruence.
  - subst e. repeat split; intros; discriminate.
  - subst e. repeat split; intros; discriminate.
  - apply in_try_events in He as (Hw & [He|(Hlen & [He|(t & Ht & _)])]).
    + subst e. repeat split; intros; discriminate.
    + apply in_transcribe_events in He as (Hm & [He|[Hto He]]).
      * subst e. repeat split; intros; discriminate.
      * destruct Hno as [Hno|[_ Hno]]; congruence.
    + congruence.
Qed.

Lemma cycle_without_transcript_is_silent_witness :
  let cfg := {| whisper_path := lit "whisper-cli"; model_path := None;
                audio_device := None |} in
  let e := ConsoleNotify (lit "Processing") (lit "Transcribing...") in
  In e (new_events long0 (stop_recording_and_transcribe cfg world_you long0))
  /\ (forall t, e <> ClipboardCopy t)
  /\ (forall path t dur, e <> SaveJson path t dur)
  /\ (forall title,
         notification_title e = Some title -> title = lit "Processing").
Proof.
  intros cfg e.
  assert (Hin : In e (new_events long0
                        (stop_recording_and_transcribe cfg world_you long0))).
  { left. reflexivity. }
  split; [exact Hin|].
  apply (cycle_without_transcript_is_silent cfg world_you long0).
  - reflexivity.
  - left. reflexivity.
  - exact Hin.
Defined.

(** X11. A release settles the recorder.  Whatever happens in the cycle,
    [stop_recording_and_transcribe] leaves the recording flag cleared,
    the captured frames and the capture stream as they were, and a second
    call, in whatever world, changes nothing. *)
Theorem release_settles :
  forall cfg w w' st,
    let st' := stop_recording_and_transcribe cfg w st in
    is_recording st' = false
    /\ audio_frames st' = audio_frames st
    /\ open_streams st' = open_streams st
    /\ stop_recording_and_transcribe cfg w' st' = st'.
Proof.
  intros cfg w w' st st'. subst st'.
  destruct (is_recording st) eqn:Hrec.
  - rewrite (stop_run cfg w st Hrec). repeat split.
  - unfold stop_recording_and_transcribe at 2 3 4 5.
    unfold stop_recording_and_transcribe at 1.
    rewrite Hrec. cbn [negb]. repeat split; auto.
    unfold stop_recording_and_transcribe. now rewrite Hrec.
Qed.

(* ------------------------------------------------------------------ *)
(** ** Capturing *)

Lemma record_loop_run reads st :
  let st' := fst (record_loop reads st) in
  snd (record_loop reads st) = read_fails reads
  /\ audio_frames st' = audio_frames st ++ captured reads
  /\ is_recording st' = is_recording st
  /\ open_streams st' = open_streams st
  /\ files st' = files st.
Proof.
  revert st. induction reads as [|[data|] reads IH]; intros st; cbn.
  - now rewrite app_nil_r.
  - destruct (IH (set_frames (audio_frames st ++ [data]) (emit ReadChunk st)))
      as (H1 & H2 & H3 & H4 & H5).
    cbn in *. rewrite H1, H2, H3, H4, H5, <- app_assoc. now repeat split.
  - now rewrite app_nil_r.
Qed.

(** X12. What a recording captures.  Called while idle,
    [start_recording] drops the frames of the previous session and
    returns with the flag cleared and with exactly the chunks read before
    the first failing read, in order (none if the stream cannot be
    opened).  The capture stream is closed again when the loop ends by
    the release of the key; when a read raises, it is left open. *)
Theorem start_recording_captures :
  forall w st,
    is_recording st = false ->
    let st' := start_recording w st in
    is_recording st' = false
    /\ files st' = files st
    /\ audio_frames st' =
         (if stream_open_raises w then [] else captured (stream_reads w))
    /\ open_streams st' =
         (if negb (stream_open_raises w) && read_fails (stream_reads w)
          then S (open_streams st) else open_streams st).
Proof.
  intros w st Hrec st'. subst st'. unfold start_recording. rewrite Hrec.
  rewrite send_notification_events.
  destruct (stream_open_raises w); [now repeat split|]. cbn [negb andb].
  match goal with |- context [record_loop ?r ?s] =>
    destruct (record_loop_run r s) as (H1 & H2 & H3 & H4 & H5);
    destruct (record_loop r s) as [st1 raised] end.
  cbn [fst snd] in *. subst raised.
  destruct (read_fails (stream_reads w)); cbn in *;
    rewrite ?H2, ?H4, ?H5; now repeat split.
Qed.

Lemma start_recording_captures_witness :
  is_recording (start_recording world_you idle0) = false
  /\ files (start_recording world_you idle0) = files idle0
  /\ audio_frames (start_recording world_you idle0) =
       (if stream_open_raises world_you then []
        else captured (stream_reads world_you))
  /\ open_streams (start_recording world_you idle0) =
       (if negb (stream_open_raises world_you)
           && read_fails (stream_reads world_you)
        then S (open_streams idle0) else open_streams idle0).
Proof.
  apply (start_recording_captures world_you idle0). reflexivity.
Defined.

(* ------------------------------------------------------------------ *)
(** ** The engine's notifications *)

(** X13. [_transcribe_audio] notifies only of a timeout.  It sends a
    notification if and only if the model is usable and the engine's run
    times out; every notification it sends carries the timeout's title. *)
Theorem engine_notifies_iff_timeout :
  forall cfg w audio_path st,
    let new := new_events st (snd (_transcribe_audio cfg w audio_path st)) in
    ((exists e, In e new /\ notification_title e <> None)
     <-> (model_usable cfg w = true /\ whisper_run w = TimeoutExpired))
    /\ forall e title,
         In e new -> notification_title e = Some title ->
         title = timeout_title.
Proof.
  intros cfg w audio_path st new. subst new.
  rewrite transcribe_audio_run. cbn [snd]. rewrite new_events_append.
  split; [split|].
  - intros (e & He & Hn).
    apply in_transcribe_events in He as (Hm & [->|[Hto _]]); [|auto].
    now contradiction Hn.
  - intros (Hm & Hto). unfold transcribe_events. rewrite Hm, Hto.
    pose proof (notify_events_nonempty w timeout_title
                  (lit "Audio processing took too long") 5 None eq_refl) as Hne.
    destruct (notify_events w timeout_title
                (lit "Audio processing took too long") 5 None)
      as [|e n] eqn:En; [congruence|].
    exists e. split; [right; now left|].
    rewrite (in_notify_events w timeout_title
               (lit "Audio processing took too long") 5 None e);
      [discriminate|]. rewrite En. now left.
  - intros e title He Ht.
    apply in_transcribe_events in He as (_ & [->|[_ He]]); [discriminate|].
    congruence.
Qed.

(* ------------------------------------------------------------------ *)
(** ** Blank notifications *)

(** X14. [_send_notification] is silent only for blank texts: it leaves
    the state and the log unchanged if and only if the title or the
    message is empty or all whitespace; otherwise a transport is called. *)
Theorem send_notification_silent_iff_blank :
  forall w title message timeout icon st,
    _send_notification w title message timeout icon st = st
    <-> (forallb isspace title = true \/ forallb isspace message = true).
Proof.
  intros w title message timeout icon st. split.
  - intros H.
    destruct (forallb isspace title) eqn:Et; [now left|].
    destruct (forallb isspace message) eqn:Em; [now right|]. exfalso.
    assert (Hnb : is_empty (strip isspace title)
                  || is_empty (strip isspace message) = false).
    { apply orb_false_iff. split.
      - destruct (strip isspace title) eqn:E; [|reflexivity].
        apply strip_nil in E. congruence.
      - destruct (strip isspace message) eqn:E; [|reflexivity].
        apply strip_nil in E. congruence. }
    rewrite send_notification_events in H.
    pose proof (notify_events_nonempty w title message timeout icon Hnb) as Hne.
    apply (f_equal (fun s => List.length (log s))) in H. cbn in H.
    rewrite length_app in H.
    destruct (notify_events w title message timeout icon);
      [congruence|cbn in H; lia].
  - intros H. unfold _send_notification.
    destruct H as [H|H]; rewrite (strip_all _ _ H); cbn;
      [reflexivity|now rewrite orb_true_r].
Qed.

(* ------------------------------------------------------------------ *)
(** ** Finding the model *)

Lemma first_file_some fs found f :
  first_file fs found = Some f ->
  exists pre post,
    found = pre ++ f :: post /\ is_file fs f = true
    /\ forall g, In g pre -> is_file fs g = false.
Proof.
  induction found as [|x found IH]; [discriminate|]. cbn.
  destruct (is_file fs x) eqn:E.
  - intros H. injection H as <-. exists [], found. now repeat split.
  - intros H. destruct (IH H) as (pre & post & -> & Hf & Hpre).
    exists (x :: pre), post. repeat split; auto.
    intros g [<-|Hg]; auto.
Qed.

Lemma first_file_none fs found :
  first_file fs found = None <-> forall g, In g found -> is_file fs g = false.
Proof.
  induction found as [|x found IH]; cbn; [now split|].
  destruct (is_file fs x) eqn:E.
  - split; [discriminate|]. intros H.
    specialize (H x (or_introl eq_refl)). congruence.
  - rewrite IH. split; [intros H g [<-|Hg]; auto|auto].
Qed.

Lemma find_in_some fs paths f :
  find_in fs paths = Some f ->
  exists before dir after pre post,
    paths = before ++ dir :: after
    /\ path_exists fs dir = true
    /\ glob_ggml fs dir = pre ++ f :: post
    /\ is_file fs f = true
    /\ (forall g, In g pre -> is_file fs g = false)
    /\ no_model_in fs before.
Proof.
  induction paths as [|d paths IH]; [discriminate|]. cbn.
  destruct (path_exists fs d) eqn:Ed.
  - destruct (first_file fs (glob_ggml fs d)) as [x|] eqn:Ef.
    + intros H. injection H as <-.
      destruct (first_file_some _ _ _ Ef) as (pre & post & Hg & Hf & Hpre).
      exists [], d, paths, pre, post. repeat split; auto.
      intros ? ? [].
    + intros H.
      destruct (IH H) as (before & dir & after & pre & post & -> & H1 & H2
                          & H3 & H4 & H5).
      exists (d :: before), dir, after, pre, post. repeat split; auto.
      intros x g [<-|Hx] Hex Hg; [|eauto].
      exact (proj1 (first_file_none _ _) Ef g Hg).
  - intros H.
    destruct (IH H) as (before & dir & after & pre & post & -> & H1 & H2
                        & H3 & H4 & H5).
    exists (d :: before), dir, after, pre, post. repeat split; auto.
    intros x g [<-|Hx] Hex Hg; [congruence|eauto].
Qed.

Lemma find_in_none fs paths :
  find_in fs paths = None <-> no_model_in fs paths.
Proof.
  unfold no_model_in. induction paths as [|d paths IH]; cbn.
  - split; [intros _ ? ? []|reflexivity].
  - destruct (path_exists fs d) eqn:Ed.
    + destruct (first_file fs (glob_ggml fs d)) as [x|] eqn:Ef.
      * split; [discriminate|]. intros H.
        destruct (first_file_some _ _ _ Ef) as (pre & post & Hg & Hf & _).
        rewrite (H d x (or_introl eq_refl) Ed) in Hf; [discriminate|].
        rewrite Hg. apply in_app_iff. right. now left.
      * rewrite IH. split.
        -- intros H x g [<-|Hx] Hex Hg; [|eauto].
           exact (proj1 (first_file_none _ _) Ef g Hg).
        -- intros H x g Hx. apply H. now right.
    + rewrite IH. split.
      * intros H x g [<-|Hx] Hex Hg; [congruence|eauto].
      * intros H x g Hx. apply H. now right.
Qed.

(** X15. The model that is found is the first one.  When
    [_find_model_path] returns a path, that path is a regular file among
    the matches of [*.ggml*] in one of the four directories, the directory
    exists, no match before it in that directory is a regular file, and
    no directory that comes earlier in the list exists with a regular
    file among its matches. *)
Theorem find_model_path_first :
  forall fs f,
    _find_model_path fs = Some f ->
    exists before dir after pre post,
      common_paths fs = before ++ dir :: after
      /\ path_exists fs dir = true
      /\ glob_ggml fs dir = pre ++ f :: post
      /\ is_file fs f = true
      /\ (forall g, In g pre -> is_file fs g = false)
      /\ no_model_in fs before.
Proof.
  intros fs f H. unfold _find_model_path in H.
  destruct (find_in_some fs (common_paths fs) f H)
    as (before & dir & after & pre & post & Hsplit & Hdir & Hglob & Hfile
        & Hpre & Hbefore).
  exists before, dir, after, pre, post. repeat split; assumption.
Qed.

Lemma find_model_path_first_witness :
  exists before dir after pre post,
    common_paths fs0 = before ++ dir :: after
    /\ path_exists fs0 dir = true
    /\ glob_ggml fs0 dir
       = pre ++ [lit "/"; lit "srv"; lit "models"; lit "base.ggml"] :: post
    /\ is_file fs0 [lit "/"; lit "srv"; lit "models"; lit "base.ggml"] = true
    /\ (forall g, In g pre -> is_file fs0 g = false)
    /\ no_model_in fs0 before.
Proof.
  apply (find_model_path_first fs0
           [lit "/"; lit "srv"; lit "models"; lit "base.ggml"]).
  reflexivity.
Defined.

(** X16. No model is found exactly when there is none: [_find_model_path]
    returns [None] if and only if none of the four directories exists
    with a regular file among its matches of [*.ggml*]. *)
Theorem find_model_path_none_iff :
  forall fs,
    _find_model_path fs = None <-> no_model_in fs (common_paths fs).
Proof.
  intros fs. unfold _find_model_path. split; intros H.
  - now apply find_in_none.
  - now apply find_in_none in H.
Qed.

(* ================================================================== *)
(** * Whitespace around the engine's output *)
(* ================================================================== *)

Lemma star_spaces p q pat r :
  (forall c, isspace c = true -> q c = false) ->
  forallb isspace r = true ->
  star p (match_here (One q :: pat)) r = None.
Proof.
  intros Hq. induction r as [|c r IH]; [reflexivity|]. intros H.
  cbn [forallb] in H. apply andb_true_iff in H as [Hc Hr].
  cbn [star]. rewrite (IH Hr), (one_fail q pat c r (Hq c Hc)).
  now destruct (p c).
Qed.

(** Whitespace after a text does not change what matches at its head. *)
Lemma match_here_padded pat :
  unspaced pat ->
  forall y r, forallb isspace r = true ->
  match_here pat (y ++ r) = match_here pat y.
Proof.
  induction 1 as [|p pat Hp _ IH|p q pat Hq Hpat IH]; intros y r Hr.
  - reflexivity.
  - destruct y as [|c y].
    + destruct r as [|c r]; [reflexivity|]. cbn [app].
      cbn [forallb] in Hr. apply andb_true_iff in Hr as [Hc _].
      now rewrite (one_fail p pat c r (Hp c Hc)).
    + cbn [app match_here]. now rewrite IH.
  - assert (Hrest : forall z, match_here (One q :: pat) (z ++ r)
                              = match_here (One q :: pat) z).
    { intros [|c z].
      - destruct r as [|c r]; [reflexivity|]. cbn [app].
        cbn [forallb] in Hr. apply andb_true_iff in Hr as [Hc _].
        now rewrite (one_fail q pat c r (Hq c Hc)).
      - cbn [app match_here]. now rewrite IH. }
    change (star p (match_here (One q :: pat)) (y ++ r)
            = star p (match_here (One q :: pat)) y).
    induction y as [|c y IHy].
    + cbn [app]. now rewrite (star_spaces p q pat r Hq Hr).
    + cbn [app star]. rewrite IHy.
      change (c :: y ++ r) with ((c :: y) ++ r). now rewrite Hrest.
Qed.

(** A match is not longer than the text. *)
Lemma star_length p rest :
  (forall y n, rest y = Some n -> (n <= List.length y)%nat) ->
  forall y n, star p rest y = Some n -> (n <= List.length y)%nat.
Proof.
  intros Hrest y. induction y as [|c y IH]; intros n H.
  - now apply Hrest.
  - cbn [star] in H. destruct (p c); [|now apply Hrest].
    destruct (star p rest y) as [k|] eqn:Ek; [|now apply Hrest].
    injection H as <-. specialize (IH k eq_refl). cbn. lia.
Qed.

Lemma match_here_length pat :
  forall y n, match_here pat y = Some n -> (n <= List.length y)%nat.
Proof.
  induction pat as [|[p|p|] pat IH]; intros y n H.
  - injection H as <-. lia.
  - destruct y as [|c y]; [discriminate|]. cbn [match_here] in H.
    destruct (p c); [|discriminate].
    destruct (match_here pat y) as [k|] eqn:Ek; [|discriminate].
    injection H as <-. specialize (IH y k Ek). cbn. lia.
  - cbn [match_here] in H. revert H. now apply star_length.
  - destruct y as [|c [|e y]]; cbn [match_here] in H.
    + now apply IH.
    + destruct (char_eqb c 10); [now apply IH|discriminate].
    + discriminate.
Qed.

Lemma sub_from_spaces pat r :
  unspaced pat -> forallb isspace r = true -> sub_from pat 0 r = r.
Proof.
  intros Hpat. induction r as [|c r IH]; [reflexivity|]. intros Hr.
  pose proof Hr as Hr'. cbn [forallb] in Hr'.
  apply andb_true_iff in Hr' as [_ Hr'].
  cbn [sub_from].
  change (c :: r) with ([] ++ c :: r) at 1.
  rewrite (match_here_padded pat Hpat [] (c :: r) Hr).
  pose proof (match_here_length pat [] ) as Hlen.
  destruct (match_here pat []) as [[|k]|] eqn:E;
    [now rewrite IH| |now rewrite IH].
  specialize (Hlen _ eq_refl). cbn in Hlen. lia.
Qed.

(** A deletion pass leaves whitespace after the text in place. *)
Lemma sub_from_padded pat r :
  unspaced pat -> forallb isspace r = true ->
  forall y k, (k <= List.length y)%nat ->
  sub_from pat k (y ++ r) = sub_from pat k y ++ r.
Proof.
  intros Hpat Hr y. induction y as [|c y IH]; intros k Hk.
  - cbn in Hk. assert (k = 0%nat) as -> by lia.
    now apply sub_from_spaces.
  - cbn [app sub_from]. destruct k as [|k].
    + change (c :: y ++ r) with ((c :: y) ++ r).
      rewrite (match_here_padded pat Hpat (c :: y) r Hr).
      pose proof (match_here_length pat (c :: y)) as Hlen.
      destruct (match_here pat (c :: y)) as [[|n]|].
      * cbn [app]. f_equal. apply IH. lia.
      * specialize (Hlen _ eq_refl). cbn in Hlen. apply IH. lia.
      * cbn [app]. f_equal. apply IH. lia.
    + apply IH. cbn in Hk. lia.
Qed.

Lemma hms_unspaced : unspaced hms.
Proof.
  unfold hms, d.
  repeat (apply unspaced_one; [intros c Hc|]); try apply unspaced_nil;
    auto using space_not_digit, space_not_colon.
Qed.

Lemma hms_ms_unspaced : unspaced hms_ms.
Proof.
  unfold hms_ms, hms, d. cbn [app].
  repeat (apply unspaced_one; [intros c Hc|]); try apply unspaced_nil;
    auto using space_not_digit, space_not_colon, space_not_dot.
Qed.

Lemma space_not_chr k x c :
  lit k = [x] -> isspace x = false -> isspace c = true -> chr k c = false.
Proof.
  intros Hk Hx Hc. destruct (chr k c) eqn:E; [|reflexivity].
  apply (chr_true k c x Hk) in E. congruence.
Qed.

Lemma srt_unspaced : unspaced srt.
Proof.
  unfold srt, hms_ms, hms, d. cbn [app].
  repeat first [apply unspaced_many; [intros c Hc|]
               |apply unspaced_one; [intros c Hc|]];
    try apply unspaced_nil;
    first [now apply space_not_digit
          |eapply space_not_chr; [reflexivity|reflexivity|exact Hc]].
Qed.

Lemma re_sub_padded pat l x r :
  unspaced pat ->
  (forall c s, isspace c = true -> match_here pat (c :: s) = None) ->
  forallb isspace l = true -> forallb isspace r = true ->
  re_sub pat (l ++ x ++ r) = l ++ re_sub pat x ++ r.
Proof.
  intros Hpat Hhead Hl Hr. rewrite re_sub_keeps.
  - f_equal. unfold re_sub. apply sub_from_padded; auto. lia.
  - intros c s Hin. apply Hhead.
    exact (proj1 (forallb_forall _ _) Hl c Hin).
Qed.

Lemma split_app_spaces_r y r :
  forallb isspace r = true -> split (y ++ r) = split y.
Proof.
  intros Hr. induction y as [|c y IH]; [now apply split_spaces|].
  cbn [app]. destruct (isspace c) eqn:Ec.
  - now rewrite !split_space.
  - rewrite !split_letter by exact Ec. destruct y as [|e y].
    + cbn [app]. destruct r as [|x r]; [reflexivity|].
      pose proof Hr as Hr'. cbn [forallb] in Hr'.
      apply andb_true_iff in Hr' as [Hx _]. rewrite Hx.
      now rewrite split_spaces.
    + cbn [app] in IH |- *. now rewrite IH.
Qed.

Lemma cleaned_padded l x r :
  forallb isspace l = true -> forallb isspace r = true ->
  cleaned (l ++ x ++ r) = cleaned x.
Proof.
  intros Hl Hr. unfold cleaned, remove_timestamps.
  rewrite (re_sub_padded srt l x r srt_unspaced); auto;
    [|intros c s Hc; now apply srt_needs_bracket, space_not_bracket].
  rewrite (re_sub_padded hms_ms l _ r hms_ms_unspaced); auto;
    [|intros c s Hc; now apply hms_ms_needs_digit, space_not_digit].
  rewrite (re_sub_padded hms l _ r hms_unspaced); auto;
    [|intros c s Hc; now apply hms_needs_digit, space_not_digit].
  now rewrite split_app_spaces, split_app_spaces_r.
Qed.

(** X17. Whitespace around the engine's output does not matter: the
    filter gives the same result for a text as for the text stripped of
    leading and trailing whitespace, so that the [strip()] of the
    standard output in [_transcribe_audio] changes no verdict. *)
Theorem filter_ignores_outer_whitespace :
  forall s,
    _clean_transcription (strip isspace s) = _clean_transcription s.
Proof.
  intros s.
  destruct (strip_decompose isspace s) as (l & r & Hs & Hl & Hr).
  rewrite !clean_judge. f_equal.
  rewrite Hs at 2. symmetry. now apply cleaned_padded.
Qed.

(* ================================================================== *)
(** * Files *)
(* ================================================================== *)


